(** * object-storage: registry, registrar, gateway and request validation

    A shallow embedding of the Go packages [registry], [registrar],
    [gateway] and [app] of dariusigna/object-storage, and the properties
    of the routing core proved over it.

    Go strings are byte sequences; they are Rocq [string]s (lists of 8-bit
    [ascii]).  The concurrent map [cmap.ConcurrentMap string ServiceMetadata]
    is a [gmap string ServiceMetadata] (its sequential behaviour); the
    consistent-hash ring is the set of the node identities on it. *)

From stdpp Require Import base strings gmap sets list.
From Stdlib Require Import NArith ZArith Ascii.

Local Open Scope string_scope.
Local Open Scope list_scope.

Set Warnings "-clear-no-such-hyp".

(** ** Go errors *)

(** The error values the packages build: [fmt.Errorf] without and with
    [%w], the error slice of [retry.Do], the gateway's [NotFoundError] and
    the errors of the collaborators (Docker daemon, object store). *)
#[warnings="-register-all"] Inductive error : Type :=
| Errorf (msg : string)
| Wrapf (msg : string) (cause : error)
| RetryError (attempts : list error)
| NotFoundError
| ErrorResponse (statusCode : Z)
| ExternalError (msg : string).

(** A Go result pair [(v, err)] with [err != nil] exclusive of a value. *)
Inductive Result (A : Type) : Type :=
| Ok (a : A)
| Err (e : error).
Arguments Ok {A} a.
Arguments Err {A} e.

Definition is_Ok {A} (r : Result A) : bool :=
  match r with Ok _ => true | Err _ => false end.

Definition is_Err {A} (r : Result A) : bool := negb (is_Ok r).

(** ** Package hash (go-zero): the consistent-hash ring *)

Module Hash.

(** The hash space is that of a [uint64]. *)
Definition space : N := 2 ^ 64.

(** Modelled from the spec: the ring type [hash.ConsistentHash] of the
    go-zero dependency is not part of the sources.  The ring is the set
    of node identities arranged on a hash ring over a fixed hash space;
    it carries its hash function, as the [hashFunc] field does. *)
Record ConsistentHash : Type := {
  hashFunc : string → N;
  nodes : gset string
}.

(** Modelled from the spec: [hash.NewCustomConsistentHash], an empty ring. *)
Definition NewCustomConsistentHash (fn : string → N) : ConsistentHash :=
  {| hashFunc := fn; nodes := ∅ |}.

(** Position of a string on the ring, wrapped into the hash space. *)
Definition position (h : ConsistentHash) (s : string) : N :=
  (hashFunc h s mod space)%N.

(** Clockwise distance on the ring from position [from] to position [to]. *)
Definition distance (from to : N) : N :=
  ((to + space - from) mod space)%N.

(** Modelled from the spec: [ConsistentHash.Remove], removal of the
    identity from the ring, a no-op if absent. *)
Definition Remove (node : string) (h : ConsistentHash) : ConsistentHash :=
  {| hashFunc := hashFunc h; nodes := nodes h ∖ {[ node ]} |}.

(** Modelled from the spec: [ConsistentHash.Add], which adds the identity
    to the ring (the library removes a former entry of the node first). *)
Definition Add (node : string) (h : ConsistentHash) : ConsistentHash :=
  {| hashFunc := hashFunc h; nodes := {[ node ]} ∪ nodes (Remove node h) |}.

(** Of two nodes, the one whose position is the nearer successor of [k]. *)
Definition nearer (h : ConsistentHash) (k : N) (a b : string) : string :=
  if (distance k (position h a) <=? distance k (position h b))%N then a else b.

(** Modelled from the spec: [ConsistentHash.Get], the ring owner of a key:
    the node whose ring position is the nearest successor to the hashed
    key; no owner on an empty ring. *)
Definition Get (h : ConsistentHash) (key : string) : option string :=
  match elements (nodes h) with
  | [] => None
  | n :: ns => Some (foldl (nearer h (position h key)) n ns)
  end.

Definition isEmpty (h : ConsistentHash) : Prop := nodes h = ∅.

End Hash.

(** ** Package registry *)

Module registry.

(** ServiceMetadata represents the metadata of Minio service. *)
Record ServiceMetadata : Type := {
  Name : string;
  IPAddress : string;
  AccessKey : string;
  SecretKey : string
}.

#[global] Instance ServiceMetadata_eq_dec : EqDecision ServiceMetadata.
Proof. solve_decision. Defined.

(** The zero value [ServiceMetadata{}]. *)
Definition zeroServiceMetadata : ServiceMetadata :=
  {| Name := ""; IPAddress := ""; AccessKey := ""; SecretKey := "" |}.

(** What the verb [%s] prints for a [ServiceMetadata]: the fields in
    braces, separated by spaces. *)
Definition formatServiceMetadata (s : ServiceMetadata) : string :=
  "{" +:+ Name s +:+ " " +:+ IPAddress s +:+ " " +:+ AccessKey s +:+ " "
      +:+ SecretKey s +:+ "}".

(** Registry is a service registry. *)
Record Registry : Type := {
  hash : Hash.ConsistentHash;
  instances : gmap string ServiceMetadata
}.

Definition NewRegistry (h : Hash.ConsistentHash) : Registry :=
  {| hash := h; instances := ∅ |}.

(** [instances.Get]: the value and whether it was found; the zero value
    when it was not. *)
Definition instancesGet (r : Registry) (key : string) : ServiceMetadata * bool :=
  match instances r !! key with
  | Some v => (v, true)
  | None => (zeroServiceMetadata, false)
  end.

Definition RegisterService (service : ServiceMetadata) (r : Registry) : Registry :=
  {| instances := <[ IPAddress service := service ]> (instances r);
     hash := Hash.Add (IPAddress service) (hash r) |}.

Definition DeregisterService (ipAddress : string) (r : Registry) : Registry :=
  {| instances := delete ipAddress (instances r);
     hash := Hash.Remove ipAddress (hash r) |}.

Definition MatchService (r : Registry) (key : string) : Result ServiceMetadata :=
  match Hash.Get (hash r) key with
  | None => Err (Errorf ("could not match service for key " +:+ key))
  | Some serviceIP =>
      let '(service, ok) := instancesGet r serviceIP in
      if negb ok
      then Err (Errorf ("could not find service with IP "
                          +:+ formatServiceMetadata service))
      else Ok service
  end.

(** [GetAllServices]: the values of the map, in the order [IterBuffered]
    happens to deliver them (unspecified; here the order of [map_to_list]). *)
Definition GetAllServices (r : Registry) : list ServiceMetadata :=
  (map_to_list (instances r)).*2.

(** The errors of [MatchService]: the key has no owner, or the owner has
    no metadata.  This is the registry's not-found class of errors. *)
Definition isNotFound (e : error) : Prop :=
  (∃ key, e = Errorf ("could not match service for key " +:+ key)) ∨
  (∃ rendered, e = Errorf ("could not find service with IP " +:+ rendered)).

(** Each entry of the map is stored under its own identity. *)
Definition keyed (r : Registry) : Prop :=
  ∀ k v, instances r !! k = Some v → IPAddress v = k.

(** The steady state of a registry: the entries are stored under their
    identities, and the ring holds the identities of the map. *)
Definition consistent (r : Registry) : Prop :=
  keyed r ∧ Hash.nodes (hash r) = dom (instances r).

End registry.

(** ** State monad for the code that works on shared state *)

Definition State (S A : Type) : Type := S → A * S.

#[global] Instance State_ret {S} : MRet (State S) := λ A a s, (a, s).
#[global] Instance State_bind {S} : MBind (State S) :=
  λ A B f m s, let '(a, s') := m s in f a s'.

(** [for _, x := range l { body x }] over a slice. *)
Fixpoint forEach {S A} (l : list A) (body : A → State S unit) : State S unit :=
  match l with
  | [] => mret tt
  | x :: l' => body x ;; forEach l' body
  end.

(** Go leaves the order in which [range] visits the keys of a map
    unspecified.  [rangeKeys prio s] visits first the keys that [prio]
    lists, in the order of [prio], then the remaining ones: each order of
    the keys is [rangeKeys prio s] for [prio] that order itself. *)
Definition rangeKeys (prio : list string) (s : gset string) : list string :=
  remove_dups (filter (λ k, k ∈ s) prio)
    ++ filter (λ k, k ∉ prio) (elements s).

(** ** Docker API types and client *)

Module types.

Record Container : Type := { ID : string }.

Record ContainerState : Type := { Status : string }.

Record ContainerConfig : Type := { Env : list string }.

Record EndpointSettings : Type := { IPAddress : string }.

(** [Networks] is a Go map that the code ranges over only to take the
    entry visited first: the entries are listed in the order of that visit. *)
Record NetworkSettings : Type := {
  Networks : list (string * EndpointSettings)
}.

Record ContainerJSON : Type := {
  Name : string;
  State : ContainerState;
  Config : ContainerConfig;
  NetworkSettingsOf : NetworkSettings
}.

End types.

Module client.

(** The two calls of the Docker client the registrar makes: the list of
    the containers under a filter (pairs of a key and a value), and the
    inspection of one container by its id. *)
Record Client : Type := {
  ContainerList : list (string * string) → Result (list types.Container);
  ContainerInspect : string → Result types.ContainerJSON
}.

End client.

(** ** Docker API events *)

Module events.

Record Message : Type := { Type_ : string; Action : string }.

(** Modelled from the spec: the nine lifecycle actions, constants of the
    events package of the Docker API, which is not part of the sources. *)
Definition ActionCreate : string := "create".
Definition ActionDestroy : string := "destroy".
Definition ActionStart : string := "start".
Definition ActionStop : string := "stop".
Definition ActionKill : string := "kill".
Definition ActionPause : string := "pause".
Definition ActionUnPause : string := "unpause".
Definition ActionRestart : string := "restart".
Definition ActionDie : string := "die".

End events.

(** ** Package registrar *)

Module registrar.

Definition NamePrefix : string := "amazin-object-storage-node".
Definition MinioAccessKeyVarName : string := "MINIO_ACCESS_KEY".
Definition MinioSecretKeyVarName : string := "MINIO_SECRET_KEY".

(** The calls made on the registry, in the order they are made. *)
Inductive Call : Type :=
| CallGetAllServices
| CallRegisterService (service : registry.ServiceMetadata)
| CallDeregisterService (ipAddress : string).

#[global] Instance Call_eq_dec : EqDecision Call.
Proof. solve_decision. Defined.

(** The registry the registrar points to, and the log of the calls. *)
Record World : Type := {
  reg : registry.Registry;
  calls : list Call
}.

Definition M : Type → Type := State World.

Definition GetAllServices : M (list registry.ServiceMetadata) :=
  λ w, (registry.GetAllServices (reg w),
        {| reg := reg w; calls := calls w ++ [CallGetAllServices] |}).

Definition RegisterService (service : registry.ServiceMetadata) : M unit :=
  λ w, (tt, {| reg := registry.RegisterService service (reg w);
               calls := calls w ++ [CallRegisterService service] |}).

Definition DeregisterService (ipAddress : string) : M unit :=
  λ w, (tt, {| reg := registry.DeregisterService ipAddress (reg w);
               calls := calls w ++ [CallDeregisterService ipAddress] |}).

(** The orders in which one pass ranges over its two maps. *)
Record RangeOrder : Type := {
  newOrder : list string;
  currentOrder : list string
}.

(** [strings.SplitN(s, sep, 2)] for a one-byte separator: the part before
    the first separator and the part after it, or [s] alone. *)
Fixpoint cutFirst (sep : ascii) (s : string) : option (string * string) :=
  match s with
  | EmptyString => None
  | String c s' =>
      if Ascii.eqb c sep then Some (EmptyString, s')
      else match cutFirst sep s' with
           | Some (a, b) => Some (String c a, b)
           | None => None
           end
  end.

Definition SplitN2 (s : string) (sep : ascii) : list string :=
  match cutFirst sep s with
  | Some (a, b) => [a; b]
  | None => [s]
  end.

(** One turn of the loop over [c.Config.Env], on the pair of the access
    key and the secret key found so far. *)
Definition envStep (keys : string * string) (env : string) : string * string :=
  match SplitN2 env "="%char with
  | [name; value] =>
      if String.eqb name MinioAccessKeyVarName then (value, keys.2)
      else if String.eqb name MinioSecretKeyVarName then (keys.1, value)
      else keys
  | _ => keys
  end.

Definition getServiceMetadataFromContainer (c : types.ContainerJSON)
  : registry.ServiceMetadata :=
  let '(accessKey, secretKey) :=
    foldl envStep (EmptyString, EmptyString) (types.Env (types.Config c)) in
  let ipAddress :=
    match types.Networks (types.NetworkSettingsOf c) with
    | (_, network) :: _ => types.IPAddress network
    | [] => EmptyString
    end in
  {| registry.Name := types.Name c;
     registry.IPAddress := ipAddress;
     registry.AccessKey := accessKey;
     registry.SecretKey := secretKey |}.

Definition nonEmpty (s : string) : bool := negb (String.eqb s EmptyString).

Definition isValidServiceMetadata (m : registry.ServiceMetadata) : bool :=
  nonEmpty (registry.IPAddress m) && nonEmpty (registry.AccessKey m)
    && nonEmpty (registry.SecretKey m).

(** The two maps [diffAndUpdateInstances] builds. *)
Definition currentSetOf (currentInstances : list registry.ServiceMetadata)
  : gset string :=
  foldl (λ s i, {[ registry.IPAddress i ]} ∪ s) ∅ currentInstances.

Definition newSetOf (newInstances : list registry.ServiceMetadata)
  : gmap string registry.ServiceMetadata :=
  foldl (λ m i, <[ registry.IPAddress i := i ]> m) ∅ newInstances.

Definition diffAndUpdateInstances (ord : RangeOrder)
    (newInstances : list registry.ServiceMetadata) : M unit :=
  currentInstances ← GetAllServices;
  let currentSet := currentSetOf currentInstances in
  let newSet := newSetOf newInstances in
  forEach (rangeKeys (newOrder ord) (dom newSet)) (λ ip,
      match newSet !! ip with
      | Some instance =>
          if decide (ip ∈ currentSet) then mret tt else RegisterService instance
      | None => mret tt
      end) ;;
  forEach (rangeKeys (currentOrder ord) currentSet) (λ i,
      if decide (is_Some (newSet !! i)) then mret tt else DeregisterService i).

(** The loop of [refreshInstances] over the listed containers. *)
Fixpoint collectInstances (cli : client.Client) (containers : list types.Container)
    (availableInstances : list registry.ServiceMetadata)
  : Result (list registry.ServiceMetadata) :=
  match containers with
  | [] => Ok availableInstances
  | c :: rest =>
      match client.ContainerInspect cli (types.ID c) with
      | Err e => Err e
      | Ok info =>
          if negb (String.eqb (types.Status (types.State info)) "running")
          then collectInstances cli rest availableInstances
          else
            let serviceMetadata := getServiceMetadataFromContainer info in
            if negb (isValidServiceMetadata serviceMetadata)
            then collectInstances cli rest availableInstances
            else collectInstances cli rest (availableInstances ++ [serviceMetadata])
      end
  end.

(** The filter [containerFilters] of the list call of a pass. *)
Definition listFilter : list (string * string) := [("name", NamePrefix)].

Definition refreshInstances (cli : client.Client) (ord : RangeOrder)
  : M (option error) :=
  match client.ContainerList cli listFilter with
  | Err e => mret (Some e)
  | Ok containers =>
      match collectInstances cli containers [] with
      | Err e => mret (Some e)
      | Ok availableInstances =>
          diffAndUpdateInstances ord availableInstances ;; mret None
      end
  end.

(** *** The calls of a pass, described apart from the loops *)

(** The identities of a list of instances, as a set. *)
Definition identitiesOf (l : list registry.ServiceMetadata) : gset string :=
  list_to_set (registry.IPAddress <$> l).

Definition isRegisterOf (ip : string) (c : Call) : bool :=
  match c with
  | CallRegisterService service => String.eqb (registry.IPAddress service) ip
  | _ => false
  end.

Definition isDeregisterOf (ip : string) (c : Call) : bool :=
  match c with
  | CallDeregisterService i => String.eqb i ip
  | _ => false
  end.

Definition countCalls (p : Call → bool) (l : list Call) : nat :=
  length (List.filter p l).

(** The effect of one call on the registry. *)
Definition applyCall (r : registry.Registry) (c : Call) : registry.Registry :=
  match c with
  | CallGetAllServices => r
  | CallRegisterService service => registry.RegisterService service r
  | CallDeregisterService i => registry.DeregisterService i r
  end.

(** The world after the calls [cs], made in this order. *)
Definition afterCalls (cs : list Call) (w : World) : World :=
  {| reg := foldl applyCall (reg w) cs; calls := calls w ++ cs |}.

(** The calls of the first loop and of the second loop of
    [diffAndUpdateInstances], for the keys in the order of the visit. *)
Definition registerPlan (currentSet : gset string)
    (newSet : gmap string registry.ServiceMetadata) (keys : list string)
  : list Call :=
  flat_map (λ ip, match newSet !! ip with
                  | Some instance =>
                      if decide (ip ∈ currentSet) then []
                      else [CallRegisterService instance]
                  | None => []
                  end) keys.

Definition deregisterPlan (newSet : gmap string registry.ServiceMetadata)
    (keys : list string) : list Call :=
  flat_map (λ i, if decide (is_Some (newSet !! i)) then []
                 else [CallDeregisterService i]) keys.

(** An entity is eligible when its status is "running" and its
    configuration yields a complete metadata: a non-empty identity, a
    non-empty access key and a non-empty secret key. *)
Definition eligible (info : types.ContainerJSON) : Prop :=
  types.Status (types.State info) = "running" ∧
  registry.IPAddress (getServiceMetadataFromContainer info) ≠ "" ∧
  registry.AccessKey (getServiceMetadataFromContainer info) ≠ "" ∧
  registry.SecretKey (getServiceMetadataFromContainer info) ≠ "".

#[global] Instance eligible_dec info : Decision (eligible info).
Proof. unfold eligible. apply _. Defined.

(** The calls of one pass, in order. *)
Definition passCalls (ord : RangeOrder)
    (newInstances : list registry.ServiceMetadata) (w : World) : list Call :=
  CallGetAllServices ::
    registerPlan (currentSetOf (registry.GetAllServices (reg w)))
      (newSetOf newInstances)
      (rangeKeys (newOrder ord) (dom (newSetOf newInstances)))
    ++ deregisterPlan (newSetOf newInstances)
         (rangeKeys (currentOrder ord)
            (currentSetOf (registry.GetAllServices (reg w)))).

(** *** The events of the daemon *)

Definition shouldRefresh (event : events.Message) : bool :=
  String.eqb (events.Action event) events.ActionCreate
  || String.eqb (events.Action event) events.ActionDestroy
  || String.eqb (events.Action event) events.ActionStart
  || String.eqb (events.Action event) events.ActionStop
  || String.eqb (events.Action event) events.ActionKill
  || String.eqb (events.Action event) events.ActionPause
  || String.eqb (events.Action event) events.ActionUnPause
  || String.eqb (events.Action event) events.ActionRestart
  || String.eqb (events.Action event) events.ActionDie.

Definition handleDockerEvent (cli : client.Client) (ord : RangeOrder)
    (event : events.Message) : M (option error) :=
  if shouldRefresh event then refreshInstances cli ord else mret None.

(** What one turn of the [select] of the listening loop yields: the end
    of the context, a message of the stream, or an error of the stream.
    A message comes with the answers that the daemon gives while it is
    handled, and with the order of the ranges of that pass. *)
Inductive Selected : Type :=
| CtxDone
| Received (event : events.Message) (daemon : client.Client) (ord : RangeOrder)
| StreamError (e : error).

(** The loop as seen from outside: the errors it logged, how many times
    it subscribed to the stream, and whether it has returned. *)
Record Listener : Type := {
  logged : list error;
  subscriptions : nat;
  returned : bool
}.

Definition logError (err : option error) (st : Listener) : Listener :=
  match err with
  | Some e => {| logged := logged st ++ [e]; subscriptions := subscriptions st;
                 returned := returned st |}
  | None => st
  end.

(** The two nested loops of [ListenForDockerEvents] on what the [select]
    yields, turn by turn: an error of the stream leaves the inner loop
    and the outer loop subscribes again; at the end of [inputs] the loop
    waits. *)
Fixpoint listenLoop (inputs : list Selected) (st : Listener) : M Listener :=
  match inputs with
  | [] => mret st
  | CtxDone :: _ =>
      mret {| logged := logged st; subscriptions := subscriptions st;
              returned := true |}
  | Received event daemon ord :: rest =>
      err ← handleDockerEvent daemon ord event;
      listenLoop rest (logError err st)
  | StreamError e :: rest =>
      listenLoop rest {| logged := logged st ++ [e];
                         subscriptions := S (subscriptions st);
                         returned := returned st |}
  end.

Definition ListenForDockerEvents (daemon : client.Client) (ord : RangeOrder)
    (inputs : list Selected) : M Listener :=
  err ← refreshInstances daemon ord;
  listenLoop inputs
    (logError err {| logged := []; subscriptions := 1; returned := false |}).


(** What a pass with the answers [cli] observes: the error of the
    daemon, or the instances that [refreshInstances] hands to
    [diffAndUpdateInstances]. *)
Definition observedBy (cli : client.Client)
  : Result (list registry.ServiceMetadata) :=
  match client.ContainerList cli listFilter with
  | Err e => Err e
  | Ok containers => collectInstances cli containers []
  end.

(** The pass that the turn starts, if it starts one, fails or observes
    exactly the identities [B]. *)
Definition observesOnly (B : gset string) (i : Selected) : Prop :=
  match i with
  | Received event daemon _ =>
      shouldRefresh event = true →
      match observedBy daemon with
      | Ok observed => identitiesOf observed = B
      | Err _ => True
      end
  | _ => True
  end.

(** *** The environment of a container, described apart from the loop *)

(** The rest of [s] after the prefix [p], when [s] starts with [p]. *)
Fixpoint stripPrefix (p s : string) : option string :=
  match p, s with
  | EmptyString, _ => Some s
  | String a p', String b s' => if Ascii.eqb a b then stripPrefix p' s' else None
  | String _ _, EmptyString => None
  end.

(** The values that the entries [name=value] of an environment give to
    the variable [name], in the order of the entries. *)
Definition envValues (name : string) (env : list string) : list string :=
  omap (stripPrefix (name +:+ "=")) env.

End registrar.

(** ** Object-store client (minio-go) *)

Module minio.

Record Credentials : Type := {
  accessKeyID : string;
  secretAccessKey : string;
  sessionToken : string
}.

(** [credentials.NewStaticV4(id, secret, token)]. *)
Definition NewStaticV4 (id secret token : string) : Credentials :=
  {| accessKeyID := id; secretAccessKey := secret; sessionToken := token |}.

Record Options : Type := {
  Creds : Credentials;
  Secure : bool
}.

(** The capability the gateway needs of the object store: the
    construction of a client for an endpoint, and the four operations of
    a client, which act on the state of the backend nodes. *)
Record ObjectStore : Type := {
  Client : Type;
  Object : Type;
  Backend : Type;
  New : string → Options → Result Client;
  GetObject : Client → string → string → State Backend (Result Object);
  ReadAll : Object → State Backend (Result string);
  BucketExists : Client → string → State Backend (Result bool);
  MakeBucket : Client → string → State Backend (option error);
  PutObject : Client → string → string → string → State Backend (option error)
}.

End minio.

(** ** Package gateway *)

Module gateway.

(** A [time.Duration] is a number of nanoseconds. *)
Definition Millisecond : Z := 1000000.

(** What a request does outside of its own variables, in order; a sleep
    comes with its duration. *)
Inductive Event : Type :=
| EvMatchService (key : string)
| EvSleep (d : Z)
| EvNew (endpoint : string) (opts : minio.Options).

Section Gateway.

Context (store : minio.ObjectStore).

(** The registry is shared with the registrar, which changes it while a
    request runs: [registryAt n] is the registry as the [n]-th call of
    [MatchService] of the run finds it.  [random n] is the [n]-th number
    that the random generator gives to the run. *)
Record World : Type := {
  registryAt : nat → registry.Registry;
  reads : nat;
  random : nat → Z;
  drawn : nat;
  trace : list Event;
  backend : minio.Backend store
}.

Definition log (e : Event) (w : World) : World :=
  {| registryAt := registryAt w; reads := reads w;
     random := random w; drawn := drawn w;
     trace := trace w ++ [e]; backend := backend w |}.

Definition Sleep {V} (d : Z) : State (World * V) unit :=
  λ '(w, v), (tt, (log (EvSleep d) w, v)).

(** [o.registry.MatchService(id)] on the shared registry. *)
Definition MatchService (id : string) : State World (Result registry.ServiceMetadata) :=
  λ w, (registry.MatchService (registryAt w (reads w)) id,
        {| registryAt := registryAt w; reads := S (reads w);
           random := random w; drawn := drawn w;
           trace := trace w ++ [EvMatchService id]; backend := backend w |}).

(** The retry-go dependency is not part of the sources.  What follows is
    its loop with the defaults that [getMatchingInstance] leaves in
    place: the delay type is the sum of a back-off delay and of a random
    delay below the maximal jitter of 100 ms. *)

Definition DefaultMaxJitter : Z := 100 * Millisecond.

Definition maxInt64 : Z := 2 ^ 63 - 1.

(** [retry.BackOffDelay]: the configured delay shifted left by the
    number [n] of the failed attempt, the shift being capped so that the
    duration does not overflow. *)
Definition BackOffDelay (delay : Z) (n : nat) : Z :=
  let delay := if (delay <=? 0)%Z then 1%Z else delay in
  let maxBackOffN := (62 - Z.log2 delay)%Z in
  Z.shiftl delay (Z.min (Z.of_nat n) maxBackOffN).

(** [retry.RandomDelay]: a random duration below [maxJitter]. *)
Definition RandomDelay {V} (maxJitter : Z) : State (World * V) Z :=
  λ '(w, v),
    ((random w (drawn w) mod maxJitter)%Z,
     ({| registryAt := registryAt w; reads := reads w;
         random := random w; drawn := S (drawn w);
         trace := trace w; backend := backend w |}, v)).

(** [retry.CombineDelay] of two delays: their sum, capped. *)
Definition CombineDelay (d1 d2 : Z) : Z := Z.min (d1 + d2) maxInt64.

(** The loop of [retry.Do]: [n] is the number of the attempt, from 0,
    and [left] the number of attempts left.  After a failed attempt that
    is not the last, the loop sleeps for the delay of the delay type;
    exhausting the attempts surfaces the error of the policy, which
    holds the attempts' errors. *)
Fixpoint retryLoop {V} (retryableFunc : State (World * V) (option error))
    (delay maxJitter : Z) (n left : nat) (errorLog : list error)
  : State (World * V) (option error) :=
  match left with
  | O => mret (Some (RetryError errorLog))
  | S left' =>
      err ← retryableFunc;
      match err with
      | None => mret None
      | Some e =>
          match left' with
          | O => mret (Some (RetryError (errorLog ++ [e])))
          | S _ =>
              jitter ← RandomDelay maxJitter;
              Sleep (CombineDelay (BackOffDelay delay n) jitter) ;;
              retryLoop retryableFunc delay maxJitter (S n) left'
                (errorLog ++ [e])
          end
      end
  end.

Definition retryDo {V} (retryableFunc : State (World * V) (option error))
    (attempts : nat) (delay : Z) : State (World * V) (option error) :=
  retryLoop retryableFunc delay DefaultMaxJitter 0 attempts [].

(** The function literal given to [retry.Do]; it assigns the variable
    [instance] of [getMatchingInstance], the second part of the state. *)
Definition matchAttempt (id : string)
  : State (World * registry.ServiceMetadata) (option error) :=
  λ '(w, _),
    let '(res, w') := MatchService id w in
    match res with
    | Ok instance => (None, (w', instance))
    | Err err =>
        (Some (Wrapf "failed to get minio instance for object id" err),
         (w', registry.zeroServiceMetadata))
    end.

Definition retryAttempts : nat := 3.
Definition retryDelay : Z := 300 * Millisecond.

(** The sleep of a resolution that starts in [w], after its failed
    attempt [j]. *)
Definition sleepAfter (w : World) (j : nat) : Z :=
  CombineDelay (BackOffDelay retryDelay j)
    (random w (drawn w + j) mod DefaultMaxJitter)%Z.

Definition endpointOf (instance : registry.ServiceMetadata) : string :=
  registry.IPAddress instance +:+ ":9000".

Definition optionsOf (instance : registry.ServiceMetadata) : minio.Options :=
  {| minio.Creds := minio.NewStaticV4 (registry.AccessKey instance)
                      (registry.SecretKey instance) "";
     minio.Secure := false |}.

Definition getMatchingInstance (id : string)
  : State World (Result (minio.Client store)) :=
  λ w,
    let '(err, (w1, instance)) :=
      retryDo (matchAttempt id) retryAttempts retryDelay
        (w, registry.zeroServiceMetadata) in
    match err with
    | Some e => (Err e, w1)
    | None =>
        let endpoint := endpointOf instance in
        let w2 := log (EvNew endpoint (optionsOf instance)) w1 in
        match minio.New store endpoint (optionsOf instance) with
        | Err e => (Err (Wrapf "failed to create minio client" e), w2)
        | Ok minioInstance => (Ok minioInstance, w2)
        end
    end.

(** The second half of [getMatchingInstance] on the resolved instance. *)
Definition clientFor (instance : registry.ServiceMetadata)
  : Result (minio.Client store) :=
  match minio.New store (endpointOf instance) (optionsOf instance) with
  | Ok minioInstance => Ok minioInstance
  | Err e => Err (Wrapf "failed to create minio client" e)
  end.

(** An operation of a client, on the backend part of the world. *)
Definition onBackend {A} (op : State (minio.Backend store) A) : State World A :=
  λ w, let '(a, b) := op (backend w) in
       (a, {| registryAt := registryAt w; reads := reads w;
              random := random w; drawn := drawn w;
              trace := trace w; backend := b |}).

(** [errors.As(err, &minioErr)]: the first [minio.ErrorResponse] in the
    chain of wrapped errors, by its status code. *)
Fixpoint asErrorResponse (e : error) : option Z :=
  match e with
  | ErrorResponse code => Some code
  | Wrapf _ cause => asErrorResponse cause
  | _ => None
  end.

Definition StatusNotFound : Z := 404.

Definition GetObject (bucket id : string) : State World (Result string) :=
  r ← getMatchingInstance id;
  match r with
  | Err err => mret (Err err)
  | Ok minioInstance =>
      o ← onBackend (minio.GetObject store minioInstance bucket id);
      match o with
      | Err err => mret (Err (Wrapf "failed to get object" err))
      | Ok object =>
          d ← onBackend (minio.ReadAll store object);
          match d with
          | Err err =>
              match asErrorResponse err with
              | Some code =>
                  if (code =? StatusNotFound)%Z then mret (Err NotFoundError)
                  else mret (Err (Wrapf "failed to read object" err))
              | None => mret (Err (Wrapf "failed to read object" err))
              end
          | Ok data => mret (Ok data)
          end
      end
  end.

Definition PutObject (bucket id data : string) : State World (option error) :=
  r ← getMatchingInstance id;
  match r with
  | Err err => mret (Some err)
  | Ok minioInstance =>
      e ← onBackend (minio.BucketExists store minioInstance bucket);
      match e with
      | Err err => mret (Some (Wrapf "failed to check bucket existence" err))
      | Ok exists_ =>
          m ← (if negb exists_
               then onBackend (minio.MakeBucket store minioInstance bucket)
               else mret None);
          match m with
          | Some err => mret (Some (Wrapf "failed to create bucket" err))
          | None =>
              p ← onBackend (minio.PutObject store minioInstance bucket id data);
              match p with
              | Some err => mret (Some (Wrapf "failed to put object" err))
              | None => mret None
              end
          end
      end
  end.

End Gateway.

(** *** The attempts of a resolution, described apart from the loop *)

(** The events of [k + 1] attempts on a key when the sleep after the
    failed attempt [j] lasts [sleep j]. *)
Definition retryTrace (sleep : nat → Z) (id : string) (k : nat) : list Event :=
  EvMatchService id
    :: flat_map (λ j, [EvSleep (sleep j); EvMatchService id]) (seq 0 k).

(** The durations of the sleeps of a trace, in order. *)
Definition sleepsOf (tr : list Event) : list Z :=
  flat_map (λ e, match e with EvSleep d => [d] | _ => [] end) tr.

(** Among the attempts [from], [from + 1], ... ([n] of them), the first
    that succeeds, with its result. *)
Fixpoint firstSuccess (attempt : nat → Result registry.ServiceMetadata)
    (from n : nat) : option (nat * registry.ServiceMetadata) :=
  match n with
  | O => None
  | S n' =>
      match attempt from with
      | Ok instance => Some (from, instance)
      | Err _ => firstSuccess attempt (S from) n'
      end
  end.

(** The errors of the attempts [0 .. n-1] that failed, as the function
    given to [retry.Do] wraps them. *)
Definition attemptErrors (attempt : nat → Result registry.ServiceMetadata)
    (n : nat) : list error :=
  flat_map (λ k, match attempt k with
                 | Err e => [Wrapf "failed to get minio instance for object id" e]
                 | Ok _ => []
                 end) (seq 0 n).

(** The error that exhausting the attempts surfaces. *)
Definition isResolutionError (e : error) : Prop := ∃ errs, e = RetryError errs.

(** The events of a trace that construct a client. *)
Definition isNew (e : Event) : bool :=
  match e with EvNew _ _ => true | _ => false end.

Arguments registryAt {store} w n.
Arguments reads {store} w.
Arguments random {store} w n.
Arguments drawn {store} w.
Arguments trace {store} w.
Arguments backend {store} w.

End gateway.

(** ** Status codes of net/http *)

Module http.
Definition StatusOK : Z := 200.
Definition StatusBadRequest : Z := 400.
Definition StatusNotFound : Z := 404.
Definition StatusInternalServerError : Z := 500.
End http.

(** ** Package app: validation of the object id *)

Module app.

(** The class [[a-zA-Z0-9]] of the pattern. *)
Definition inClass (c : ascii) : bool :=
  let n := nat_of_ascii c in
  ((nat_of_ascii "a"%char <=? n)%nat && (n <=? nat_of_ascii "z"%char)%nat)
  || ((nat_of_ascii "A"%char <=? n)%nat && (n <=? nat_of_ascii "Z"%char)%nat)
  || ((nat_of_ascii "0"%char <=? n)%nat && (n <=? nat_of_ascii "9"%char)%nat).

(** [c+] from the start of [s] up to its end. *)
Fixpoint allInClass (s : string) : bool :=
  match s with
  | EmptyString => true
  | String c s' => inClass c && allInClass s'
  end.

(** [regexp.MustCompile(`^[a-zA-Z0-9]+$`).MatchString]: [^] and [$] are
    the start and the end of the text, and [+] needs one byte of the
    class at least. *)
Definition isAlphanumeric (s : string) : bool :=
  match s with
  | EmptyString => false
  | String c s' => inClass c && allInClass s'
  end.

Definition validateID (id : string) : option error :=
  if (32 <? String.length id)%nat then Some (Errorf "id is too long")
  else if negb (isAlphanumeric id)
       then Some (Errorf "id contains invalid characters")
       else None.

(** An ASCII letter or digit, by its code. *)
Definition asciiAlphanumeric (c : ascii) : Prop :=
  (48 ≤ nat_of_ascii c ≤ 57)%nat ∨ (65 ≤ nat_of_ascii c ≤ 90)%nat
  ∨ (97 ≤ nat_of_ascii c ≤ 122)%nat.

(** *** The handlers of the two routes *)

(** What a handler writes after the header: nothing, the text of an
    error, or the bytes of an object. *)
Inductive Body : Type :=
| NoBody
| ErrorText (err : error)
| Bytes (data : string).

Record Response : Type := { status : Z; body : Body }.

(** Storage is an interface for the object storage. *)
Record Storage (S : Type) : Type := {
  GetObject : string → string → State S (Result string);
  PutObject : string → string → string → State S (option error)
}.
Arguments GetObject {S} _ _ _.
Arguments PutObject {S} _ _ _ _.

(** [errors.Is(err, gateway.NotFoundError{})]: the error, or one of the
    errors it wraps with [%w], is [NotFoundError]. *)
Fixpoint errorsIsNotFound (err : error) : bool :=
  match err with
  | NotFoundError => true
  | Wrapf _ cause => errorsIsNotFound cause
  | _ => false
  end.

(** The handler of [GET /{bucket}/{id}], on the two variables of the
    route. *)
Definition handleGetObject {S} (storage : Storage S) (bucket id : string)
  : State S Response :=
  match validateID id with
  | Some err => mret {| status := http.StatusBadRequest; body := ErrorText err |}
  | None =>
      r ← GetObject storage bucket id;
      match r with
      | Err err =>
          if errorsIsNotFound err
          then mret {| status := http.StatusNotFound; body := NoBody |}
          else mret {| status := http.StatusInternalServerError; body := NoBody |}
      | Ok object => mret {| status := http.StatusOK; body := Bytes object |}
      end
  end.

(** The handler of [PUT /{bucket}/{id}], on the two variables of the
    route and on the result of [io.ReadAll(r.Body)]. *)
Definition handlePutObject {S} (storage : Storage S) (bucket id : string)
    (requestBody : Result string) : State S Response :=
  match validateID id with
  | Some err => mret {| status := http.StatusBadRequest; body := ErrorText err |}
  | None =>
      match requestBody with
      | Err _ => mret {| status := http.StatusInternalServerError; body := NoBody |}
      | Ok object =>
          err ← PutObject storage bucket id object;
          match err with
          | Some _ =>
              mret {| status := http.StatusInternalServerError; body := NoBody |}
          | None => mret {| status := http.StatusOK; body := NoBody |}
          end
      end
  end.

(** The gateway as the storage of the server, as [run] wires them. *)
Definition gatewayStorage (store : minio.ObjectStore)
  : Storage (gateway.World store) :=
  {| GetObject := gateway.GetObject store;
     PutObject := gateway.PutObject store |}.

End app.

(** ** Sample data *)

Module Sample.

(** A hash function for the samples: the length of the string. *)
Definition lengthHash (s : string) : N := N.of_nat (String.length s).

Definition node1 : registry.ServiceMetadata :=
  {| registry.Name := "/amazin-object-storage-node-1";
     registry.IPAddress := "10.0.0.1";
     registry.AccessKey := "ring";
     registry.SecretKey := "treepotato" |}.

Definition node2 : registry.ServiceMetadata :=
  {| registry.Name := "/amazin-object-storage-node-2";
     registry.IPAddress := "10.0.0.22";
     registry.AccessKey := "maglev";
     registry.SecretKey := "baconpapaya" |}.

(** [node1] after a change of its credentials, on the same address. *)
Definition node1Rotated : registry.ServiceMetadata :=
  {| registry.Name := "/amazin-object-storage-node-1";
     registry.IPAddress := "10.0.0.1";
     registry.AccessKey := "rotated";
     registry.SecretKey := "rotatedsecret" |}.

Definition emptyRegistry : registry.Registry :=
  registry.NewRegistry (Hash.NewCustomConsistentHash lengthHash).

Definition oneNode : registry.Registry :=
  registry.RegisterService node1 emptyRegistry.

Definition twoNodes : registry.Registry :=
  registry.RegisterService node2 oneNode.

(** A registry in the window between the two updates of a removal: the
    ring still names the node, the map has no entry for it. *)
Definition ringOnly : registry.Registry :=
  {| registry.hash := registry.hash oneNode; registry.instances := ∅ |}.

Definition container (name status : string) (env : list string) (ip : string)
  : types.ContainerJSON :=
  {| types.Name := name;
     types.State := {| types.Status := status |};
     types.Config := {| types.Env := env |};
     types.NetworkSettingsOf :=
       {| types.Networks := [("bridge", {| types.IPAddress := ip |})] |} |}.

Definition info1 : types.ContainerJSON :=
  container "/amazin-object-storage-node-1" "running"
    ["PATH=/usr/bin"; "MINIO_ACCESS_KEY=ring"; "MINIO_SECRET_KEY=treepotato"]
    "10.0.0.1".

(** A node that is not running. *)
Definition info2 : types.ContainerJSON :=
  container "/amazin-object-storage-node-2" "exited"
    ["MINIO_ACCESS_KEY=maglev"; "MINIO_SECRET_KEY=baconpapaya"] "10.0.0.22".

(** A running node without its secret key. *)
Definition info3 : types.ContainerJSON :=
  container "/amazin-object-storage-node-3" "running"
    ["MINIO_ACCESS_KEY=rendezvous"; "NOEQUALSIGN"] "10.0.0.33".

Definition listed : list types.Container :=
  [ {| types.ID := "c1" |}; {| types.ID := "c2" |}; {| types.ID := "c3" |} ].

(** A daemon that answers. *)
Definition docker : client.Client :=
  {| client.ContainerList := λ _, Ok listed;
     client.ContainerInspect := λ id,
       if String.eqb id "c1" then Ok info1
       else if String.eqb id "c2" then Ok info2
       else if String.eqb id "c3" then Ok info3
       else Err (ExternalError "No such container") |}.

(** A daemon that lists a container which is gone when it is inspected. *)
Definition dockerRace : client.Client :=
  {| client.ContainerList := λ _, Ok listed;
     client.ContainerInspect := λ id,
       if String.eqb id "c1" then Ok info1
       else Err (ExternalError "No such container") |}.

(** An object store in memory: a client is the endpoint and the options
    it was built with; the backend maps an endpoint and a bucket to the
    objects of the bucket. *)
Definition memoryStore : minio.ObjectStore :=
  {| minio.Client := string * minio.Options;
     minio.Object := string * string * string;
     minio.Backend := gmap (string * string) (gmap string string);
     minio.New := λ endpoint opts,
       if String.eqb endpoint ":9000"
       then Err (ExternalError "Endpoint:  does not follow ip address or domain name standards.")
       else Ok (endpoint, opts);
     minio.GetObject := λ c bucket id b, (Ok (c.1, bucket, id), b);
     minio.ReadAll := λ '(endpoint, bucket, id) b,
       (match b !! (endpoint, bucket) ≫= (λ objects, objects !! id) with
        | Some data => Ok data
        | None => Err (ErrorResponse 404)
        end, b);
     minio.BucketExists := λ c bucket b,
       (Ok (bool_decide (is_Some (b !! (c.1, bucket)))), b);
     minio.MakeBucket := λ c bucket b, (None, <[ (c.1, bucket) := ∅ ]> b);
     minio.PutObject := λ c bucket id data b,
       match b !! (c.1, bucket) with
       | Some objects => (None, <[ (c.1, bucket) := <[ id := data ]> objects ]> b)
       | None => (Some (ErrorResponse 404), b)
       end |}.

(** A request that finds the registry [r] at each of its reads. *)
Definition request (r : registry.Registry) : gateway.World memoryStore :=
  {| gateway.registryAt := λ _, r; gateway.reads := 0;
     gateway.random := λ _, 0%Z; gateway.drawn := 0;
     gateway.trace := []; gateway.backend := ∅ |}.

(** A request that finds the registry empty at its first two reads and
    the node registered at the third; the random generator gives it
    11 ms, then 49 ms. *)
Definition lateRequest : gateway.World memoryStore :=
  {| gateway.registryAt := λ n, if (n <? 2)%nat then emptyRegistry else oneNode;
     gateway.reads := 0;
     gateway.random := λ n, if (n <? 1)%nat then 11000000%Z else 49000000%Z;
     gateway.drawn := 0;
     gateway.trace := []; gateway.backend := ∅ |}.

Definition order : registrar.RangeOrder :=
  {| registrar.newOrder := []; registrar.currentOrder := [] |}.

Definition world (r : registry.Registry) : registrar.World :=
  {| registrar.reg := r; registrar.calls := [] |}.

End Sample.

(** * Properties *)

(** ** The ring *)

Section RingFacts.

Implicit Types (h : Hash.ConsistentHash) (node key : string).

Lemma Get_None_iff h key : Hash.Get h key = None ↔ Hash.isEmpty h.
Proof.
  unfold Hash.Get, Hash.isEmpty.
  destruct (elements (Hash.nodes h)) as [|n ns] eqn:E.
  - split; [intros _|done]. by apply leibniz_equiv, elements_empty_inv; rewrite E.
  - split; [done|]. intros Hempty. rewrite Hempty, elements_empty in E. done.
Qed.

Lemma nearer_fold_elem h k n ns :
  foldl (Hash.nearer h k) n ns ∈ n :: ns.
Proof.
  revert n. induction ns as [|m ns IH]; intros n; simpl.
  - set_solver.
  - unfold Hash.nearer at 2.
    destruct (_ <=? _)%N.
    + specialize (IH n). set_solver.
    + specialize (IH m). set_solver.
Qed.

(** The owner of a key is a node of the ring. *)
Lemma Get_Some_node h key node :
  Hash.Get h key = Some node → node ∈ Hash.nodes h.
Proof.
  unfold Hash.Get.
  destruct (elements (Hash.nodes h)) as [|n ns] eqn:E; [done|].
  intros [= <-]. apply elem_of_elements. rewrite E. apply nearer_fold_elem.
Qed.

Lemma Remove_idemp h node :
  Hash.Remove node (Hash.Remove node h) = Hash.Remove node h.
Proof. unfold Hash.Remove; simpl. f_equal. set_solver. Qed.

Lemma Add_idemp h node :
  Hash.Add node (Hash.Add node h) = Hash.Add node h.
Proof. unfold Hash.Add, Hash.Remove; simpl. f_equal. set_solver. Qed.

Lemma nodes_Add h node : Hash.nodes (Hash.Add node h) = {[ node ]} ∪ Hash.nodes h.
Proof.
  unfold Hash.Add, Hash.Remove; simpl. apply set_eq. intros x.
  destruct (decide (x = node)); set_solver.
Qed.

End RingFacts.

(** ** The registry *)

Section RegistryFacts.

Import registry.

Implicit Types (r : Registry) (m : ServiceMetadata) (key ip : string).

Lemma formatServiceMetadata_zero : formatServiceMetadata zeroServiceMetadata = "{   }".
Proof. reflexivity. Qed.

(** C7. Register and Deregister are idempotent: deregistering an identity
    twice in a row leaves the same members map and ring as deregistering
    it once, and registering the same metadata twice leaves the same
    members map and ring as registering it once. *)
Theorem register_deregister_idempotent :
  (∀ r ip, DeregisterService ip (DeregisterService ip r) = DeregisterService ip r) ∧
  (∀ r m, RegisterService m (RegisterService m r) = RegisterService m r).
Proof.
  split.
  - intros r ip. unfold DeregisterService; simpl.
    by rewrite Remove_idemp, delete_delete_eq.
  - intros r m. unfold RegisterService; simpl.
    by rewrite Add_idemp, insert_insert_eq.
Qed.

(** C2. [MatchService] fails exactly when the ring is empty or when the
    ring names an owner that has no entry in the metadata map; the error
    is of the not-found class; and on an empty registry it fails for
    every key. *)
Theorem MatchService_fails_iff r key :
  (is_Err (MatchService r key) = true ↔
     Hash.isEmpty (hash r) ∨
     (∃ ip, Hash.Get (hash r) key = Some ip ∧ instances r !! ip = None)) ∧
  (∀ e, MatchService r key = Err e → isNotFound e) ∧
  (∀ fn, ∃ e, MatchService (NewRegistry (Hash.NewCustomConsistentHash fn)) key = Err e).
Proof.
  split; [|split].
  - unfold MatchService, instancesGet.
    destruct (Hash.Get (hash r) key) as [ip|] eqn:G.
    + destruct (instances r !! ip) as [v|] eqn:L; simpl.
      * split; [done|]. intros [He|(ip' & [= <-] & L')].
        -- apply Get_None_iff with (key := key) in He. congruence.
        -- congruence.
      * split; [|done]. intros _. right. eauto.
    + simpl. split; [|done]. intros _. left. by apply (Get_None_iff _ key).
  - intros e. unfold MatchService, instancesGet.
    destruct (Hash.Get (hash r) key) as [ip|].
    + destruct (instances r !! ip); simpl; [done|].
      intros [= <-]. right. eauto.
    + intros [= <-]. left. eauto.
  - intros fn. unfold MatchService. simpl.
    unfold Hash.Get. simpl. rewrite elements_empty. eauto.
Qed.

Lemma MatchService_fails_iff_witness :
  isNotFound (Errorf "could not match service for key k1").
Proof.
  destruct (MatchService_fails_iff Sample.emptyRegistry "k1") as (_ & Hkind & _).
  apply Hkind. reflexivity.
Defined.

(** C4. When the ring names an owner that has no entry in the metadata
    map, [MatchService] returns an error of the not-found class whose
    message is built from the result variable, the zero value: it renders
    empty fields and not the identity looked up, whatever that identity. *)
Theorem MatchService_missing_metadata_message r key ip :
  Hash.Get (hash r) key = Some ip →
  instances r !! ip = None →
  MatchService r key = Err (Errorf "could not find service with IP {   }") ∧
  isNotFound (Errorf "could not find service with IP {   }") ∧
  "could not find service with IP {   }"
    = "could not find service with IP " +:+ formatServiceMetadata zeroServiceMetadata.
Proof.
  intros G L. split; [|split].
  - unfold MatchService, instancesGet. rewrite G, L. reflexivity.
  - right. by exists "{   }".
  - reflexivity.
Qed.

Lemma MatchService_missing_metadata_message_witness :
  MatchService Sample.ringOnly "k1"
  = Err (Errorf "could not find service with IP {   }").
Proof.
  apply (MatchService_missing_metadata_message Sample.ringOnly "k1" "10.0.0.1");
    reflexivity.
Defined.

(** The scenario of the registry: empty, then one node, then two. *)
Example registry_scenario :
  is_Err (MatchService Sample.emptyRegistry "k1") = true ∧
  MatchService Sample.oneNode "k1" = Ok Sample.node1 ∧
  MatchService Sample.twoNodes "k1" = Ok Sample.node1 ∧
  MatchService Sample.twoNodes "123456789" = Ok Sample.node2 ∧
  MatchService (DeregisterService "10.0.0.1" Sample.twoNodes) "k1" = Ok Sample.node2.
Proof. vm_compute. done. Qed.

End RegistryFacts.

(** ** Ranging over a map *)

Section RangeFacts.

Implicit Types (prio keys : list string) (s : gset string).

Lemma elem_of_rangeKeys prio s k : k ∈ rangeKeys prio s ↔ k ∈ s.
Proof.
  unfold rangeKeys. rewrite elem_of_app, elem_of_remove_dups.
  rewrite !list_elem_of_filter, elem_of_elements.
  destruct (decide (k ∈ prio)); naive_solver.
Qed.

Lemma NoDup_rangeKeys prio s : NoDup (rangeKeys prio s).
Proof.
  unfold rangeKeys. apply NoDup_app. split; [apply NoDup_remove_dups|].
  split.
  - intros k. rewrite elem_of_remove_dups, !list_elem_of_filter. naive_solver.
  - apply NoDup_filter, NoDup_elements.
Qed.

Lemma filter_all {A} (P : A → Prop) `{∀ x, Decision (P x)} (l : list A) :
  Forall P l → filter P l = l.
Proof.
  induction 1 as [|x l Hx _ IH]; [done|].
  by rewrite filter_cons_True, IH.
Qed.

Lemma filter_none {A} (P : A → Prop) `{∀ x, Decision (P x)} (l : list A) :
  Forall (λ x, ¬ P x) l → filter P l = [].
Proof.
  induction 1 as [|x l Hx _ IH]; [done|].
  by rewrite filter_cons_False.
Qed.

Lemma remove_dups_NoDup keys : NoDup keys → remove_dups keys = keys.
Proof.
  induction 1 as [|k keys Hk _ IH]; [done|].
  simpl. destruct (decide_rel _ k keys); [done|]. by rewrite IH.
Qed.

(** Every order of the keys is the order of some visit. *)
Lemma rangeKeys_any_order keys :
  NoDup keys → rangeKeys keys (list_to_set keys) = keys.
Proof.
  intros Hnd. unfold rangeKeys.
  rewrite filter_all, filter_none, remove_dups_NoDup, app_nil_r; [done..| |].
  - apply Forall_forall. intros k. rewrite elem_of_elements, elem_of_list_to_set.
    tauto.
  - apply Forall_forall. intros k Hk. by apply elem_of_list_to_set.
Qed.

End RangeFacts.

(** ** The registrar: one reconciliation pass *)

Section RegistrarFacts.

Import registrar.

Implicit Types (w : World) (cs : list Call) (ip : string)
  (l newInstances : list registry.ServiceMetadata).

Lemma afterCalls_nil w : afterCalls [] w = w.
Proof. destruct w. unfold afterCalls; simpl. by rewrite app_nil_r. Qed.

Lemma afterCalls_app cs1 cs2 w :
  afterCalls (cs1 ++ cs2) w = afterCalls cs2 (afterCalls cs1 w).
Proof. unfold afterCalls; simpl. by rewrite foldl_app, app_assoc. Qed.

Lemma forEach_afterCalls {A} (plan : A → list Call) (body : A → M unit)
    (keys : list A) w :
  (∀ x w', body x w' = (tt, afterCalls (plan x) w')) →
  forEach keys body w = (tt, afterCalls (flat_map plan keys) w).
Proof.
  intros Hbody. revert w. induction keys as [|x keys IH]; intros w; simpl.
  - by rewrite afterCalls_nil.
  - unfold mbind, State_bind. rewrite Hbody, IH. by rewrite afterCalls_app.
Qed.

(** A pass is its call of [GetAllServices], then the calls of the first
    loop, then the calls of the second loop. *)
Lemma diffAndUpdateInstances_run ord newInstances w :
  diffAndUpdateInstances ord newInstances w
  = (tt, afterCalls (passCalls ord newInstances w) w).
Proof.
  unfold diffAndUpdateInstances, passCalls, mbind, State_bind, GetAllServices.
  set (cur := currentSetOf _). set (new := newSetOf _).
  rewrite (forEach_afterCalls
             (λ ip, match new !! ip with
                    | Some instance =>
                        if decide (ip ∈ cur) then []
                        else [CallRegisterService instance]
                    | None => []
                    end)).
  2:{ intros ip w'. destruct (new !! ip); [destruct (decide _)|];
        try (by rewrite afterCalls_nil); done. }
  rewrite (forEach_afterCalls
             (λ i, if decide (is_Some (new !! i)) then []
                   else [CallDeregisterService i])).
  2:{ intros i w'. destruct (decide _); [by rewrite afterCalls_nil|done]. }
  f_equal. unfold afterCalls, registerPlan, deregisterPlan; simpl.
  rewrite !foldl_app. simpl. f_equal. by rewrite <- !app_assoc.
Qed.

Lemma currentSetOf_identities l : currentSetOf l = identitiesOf l.
Proof.
  unfold currentSetOf, identitiesOf.
  assert (∀ acc : gset string,
            foldl (λ s i, {[ registry.IPAddress i ]} ∪ s) acc l
            = list_to_set (registry.IPAddress <$> l) ∪ acc) as Hgen.
  { induction l as [|x l IH]; intros acc; simpl; [set_solver|].
    rewrite IH. set_solver. }
  rewrite Hgen. set_solver.
Qed.

Lemma newSetOf_snoc l x :
  newSetOf (l ++ [x]) = <[ registry.IPAddress x := x ]> (newSetOf l).
Proof. unfold newSetOf. by rewrite foldl_app. Qed.

(** The keys of [newSet] are the identities of its values. *)
Lemma newSetOf_lookup l ip instance :
  newSetOf l !! ip = Some instance → registry.IPAddress instance = ip ∧ instance ∈ l.
Proof.
  induction l as [|x l IH] using rev_ind; [done|].
  rewrite newSetOf_snoc. intros Hl.
  destruct (decide (registry.IPAddress x = ip)) as [<-|Hne].
  - rewrite lookup_insert_eq in Hl. injection Hl as <-. set_solver.
  - rewrite lookup_insert_ne in Hl by done. set_solver.
Qed.

Lemma dom_newSetOf l : dom (newSetOf l) = identitiesOf l.
Proof.
  unfold identitiesOf.
  induction l as [|x l IH] using rev_ind; [done|].
  rewrite newSetOf_snoc, dom_insert_L, IH, fmap_app, list_to_set_app_L.
  simpl. set_solver.
Qed.

Lemma newSetOf_is_Some l ip : is_Some (newSetOf l !! ip) ↔ ip ∈ identitiesOf l.
Proof. by rewrite <- dom_newSetOf, elem_of_dom. Qed.

Lemma countCalls_app p cs1 cs2 :
  countCalls p (cs1 ++ cs2) = countCalls p cs1 + countCalls p cs2.
Proof. unfold countCalls. by rewrite List.filter_app, length_app. Qed.

Lemma registerPlan_cons cur (new : gmap string registry.ServiceMetadata) k keys :
  registerPlan cur new (k :: keys)
  = (match new !! k with
     | Some instance =>
         if decide (k ∈ cur) then [] else [CallRegisterService instance]
     | None => []
     end ++ registerPlan cur new keys)%list.
Proof. reflexivity. Qed.

Lemma deregisterPlan_cons (new : gmap string registry.ServiceMetadata) k keys :
  deregisterPlan new (k :: keys)
  = ((if decide (is_Some (new !! k)) then [] else [CallDeregisterService k])
      ++ deregisterPlan new keys)%list.
Proof. reflexivity. Qed.

Lemma countCalls_registerPlan cur (new : gmap string registry.ServiceMetadata) keys ip :
  NoDup keys →
  (∀ k v, new !! k = Some v → registry.IPAddress v = k) →
  countCalls (isRegisterOf ip) (registerPlan cur new keys)
  = if decide (ip ∈ keys ∧ is_Some (new !! ip) ∧ ip ∉ cur) then 1 else 0.
Proof.
  intros Hnd Hkeys. induction Hnd as [|k keys Hk Hnd IH].
  - rewrite decide_False; [done|]. intros [H _]. by apply elem_of_nil in H.
  - rewrite registerPlan_cons, countCalls_app, IH. clear IH.
    destruct (new !! k) as [v|] eqn:Hv.
    + destruct (decide (k ∈ cur)) as [Hin|Hin].
      * change (countCalls _ []) with 0.
        repeat case_decide; try done; set_solver.
      * unfold countCalls at 1. cbn [List.filter isRegisterOf].
        rewrite (Hkeys _ _ Hv).
        destruct (String.eqb_spec k ip) as [->|Hne]; cbn [length].
        -- rewrite decide_False by set_solver.
           rewrite decide_True; [done|]. split; [set_solver|]. by rewrite Hv.
        -- repeat case_decide; try done; set_solver.
    + change (countCalls _ []) with 0.
      assert (is_Some (new !! ip) → ip ≠ k) as Hne
        by (intros [? ?] ->; congruence).
      repeat case_decide; try done; set_solver.
Qed.

Lemma countCalls_deregisterPlan (new : gmap string registry.ServiceMetadata) keys ip :
  NoDup keys →
  countCalls (isDeregisterOf ip) (deregisterPlan new keys)
  = if decide (ip ∈ keys ∧ ¬ is_Some (new !! ip)) then 1 else 0.
Proof.
  intros Hnd. induction Hnd as [|k keys Hk Hnd IH].
  - rewrite decide_False; [done|]. intros [H _]. by apply elem_of_nil in H.
  - rewrite deregisterPlan_cons, countCalls_app, IH. clear IH.
    destruct (decide (is_Some (new !! k))) as [Hs|Hs].
    + change (countCalls _ []) with 0.
      assert (¬ is_Some (new !! ip) → ip ≠ k) as Hne by (intros ? ->; done).
      repeat case_decide; try done; set_solver.
    + unfold countCalls at 1. cbn [List.filter isDeregisterOf].
      destruct (String.eqb_spec k ip) as [->|Hne]; cbn [length].
      * rewrite decide_False by set_solver.
        rewrite decide_True; [done|]. split; [set_solver|done].
      * repeat case_decide; try done; set_solver.
Qed.

Lemma countCalls_register_deregisterPlan (new : gmap string registry.ServiceMetadata) keys ip :
  countCalls (isRegisterOf ip) (deregisterPlan new keys) = 0.
Proof.
  induction keys as [|k keys IH]; [done|].
  rewrite deregisterPlan_cons, countCalls_app, IH.
  by destruct (decide _).
Qed.

Lemma countCalls_deregister_registerPlan cur (new : gmap string registry.ServiceMetadata) keys ip :
  countCalls (isDeregisterOf ip) (registerPlan cur new keys) = 0.
Proof.
  induction keys as [|k keys IH]; [done|].
  rewrite registerPlan_cons, countCalls_app, IH.
  destruct (new !! k); [|done]. by destruct (decide _).
Qed.

(** The calls of a pass that concern one identity. *)
Lemma passCalls_counts ord newInstances w ip :
  let A := identitiesOf (registry.GetAllServices (reg w)) in
  let B := identitiesOf newInstances in
  countCalls (isRegisterOf ip) (passCalls ord newInstances w)
    = (if decide (ip ∈ B ∖ A) then 1 else 0) ∧
  countCalls (isDeregisterOf ip) (passCalls ord newInstances w)
    = (if decide (ip ∈ A ∖ B) then 1 else 0).
Proof.
  intros A B. unfold passCalls.
  rewrite !currentSetOf_identities. fold A.
  change (CallGetAllServices :: ?x) with ([CallGetAllServices] ++ x).
  rewrite !countCalls_app.
  rewrite countCalls_registerPlan, countCalls_deregisterPlan,
    countCalls_register_deregisterPlan, countCalls_deregister_registerPlan;
    [|apply NoDup_rangeKeys..|].
  2:{ intros k v Hkv. by apply newSetOf_lookup in Hkv as [? _]. }
  assert (ip ∈ rangeKeys (newOrder ord) (dom (newSetOf newInstances)) ↔ ip ∈ B)
    as H1 by (by rewrite elem_of_rangeKeys, dom_newSetOf).
  pose proof (elem_of_rangeKeys (currentOrder ord) A ip) as H2.
  pose proof (newSetOf_is_Some newInstances ip) as HB. fold B in HB.
  change (countCalls _ [CallGetAllServices]) with 0.
  repeat case_decide.
  all: repeat match goal with
         | H : context [_ ∈ _ ∖ _] |- _ => rewrite elem_of_difference in H
         end.
  all: try (exfalso; tauto).
  all: split; lia.
Qed.

(** Calls that do not name an identity leave its entry as it is. *)
Lemma applyCalls_frame cs (r : registry.Registry) ip :
  countCalls (isRegisterOf ip) cs = 0 →
  countCalls (isDeregisterOf ip) cs = 0 →
  registry.instances (foldl applyCall r cs) !! ip = registry.instances r !! ip.
Proof.
  revert r. induction cs as [|c cs IH]; intros r; [done|].
  change (c :: cs) with ([c] ++ cs). rewrite !countCalls_app.
  intros Hr Hd. simpl. rewrite IH by lia.
  destruct c as [|service|i]; simpl; [done| |].
  - unfold countCalls in Hr; simpl in Hr.
    destruct (String.eqb_spec (registry.IPAddress service) ip); simpl in Hr; [lia|].
    by rewrite lookup_insert_ne.
  - unfold countCalls in Hd; simpl in Hd.
    destruct (String.eqb_spec i ip); simpl in Hd; [lia|].
    by rewrite lookup_delete_ne.
Qed.

(** C1. With A the identities in the registry, as [GetAllServices] gives
    them, and B the identities of the newly observed instances, one pass
    of [diffAndUpdateInstances] calls [RegisterService] once for each
    identity of B∖A and for no other, and [DeregisterService] once for
    each identity of A∖B and for no other; so neither call is made for an
    identity of A∩B.  This holds for every order of the two ranges. *)
Theorem diff_calls_exact ord newInstances w ip :
  let A := identitiesOf (registry.GetAllServices (reg w)) in
  let B := identitiesOf newInstances in
  ∃ made,
    calls (diffAndUpdateInstances ord newInstances w).2 = calls w ++ made ∧
    countCalls (isRegisterOf ip) made = (if decide (ip ∈ B ∖ A) then 1 else 0) ∧
    countCalls (isDeregisterOf ip) made = (if decide (ip ∈ A ∖ B) then 1 else 0) ∧
    (ip ∈ A ∩ B →
       countCalls (isRegisterOf ip) made = 0 ∧ countCalls (isDeregisterOf ip) made = 0).
Proof.
  intros A B. rewrite diffAndUpdateInstances_run.
  exists (passCalls ord newInstances w). split; [done|].
  destruct (passCalls_counts ord newInstances w ip) as [Hr Hd].
  fold A B in Hr, Hd. rewrite Hr, Hd. split_and!; [done..|].
  rewrite elem_of_intersection. intros [HA HB].
  rewrite !decide_False; [done|..]; rewrite elem_of_difference; tauto.
Qed.

Lemma diff_calls_exact_witness :
  ∃ made,
    calls (diffAndUpdateInstances Sample.order [Sample.node1Rotated; Sample.node2]
             (Sample.world Sample.oneNode)).2 = made ∧
    countCalls (isRegisterOf "10.0.0.1") made = 0 ∧
    countCalls (isDeregisterOf "10.0.0.1") made = 0.
Proof.
  destruct (diff_calls_exact Sample.order [Sample.node1Rotated; Sample.node2]
              (Sample.world Sample.oneNode) "10.0.0.1")
    as (made & Hcalls & _ & _ & Hcommon).
  exists made. split; [exact Hcalls|].
  apply Hcommon. apply (bool_decide_unpack _). vm_compute. exact I.
Defined.

(** C9. A pass leaves the metadata stored for an identity that is both in
    the registry and among the newly observed instances exactly as it
    was, whatever the newly observed metadata of that identity: the diff
    compares identities only. *)
Theorem diff_keeps_common_metadata ord newInstances w ip :
  ip ∈ identitiesOf (registry.GetAllServices (reg w)) →
  ip ∈ identitiesOf newInstances →
  registry.instances (reg (diffAndUpdateInstances ord newInstances w).2) !! ip
  = registry.instances (reg w) !! ip.
Proof.
  intros HA HB. rewrite diffAndUpdateInstances_run.
  destruct (passCalls_counts ord newInstances w ip) as [Hr Hd].
  apply (applyCalls_frame (passCalls ord newInstances w)).
  - rewrite Hr. apply decide_False. rewrite elem_of_difference. tauto.
  - rewrite Hd. apply decide_False. rewrite elem_of_difference. tauto.
Qed.

Lemma diff_keeps_common_metadata_witness :
  registry.instances
    (reg (diffAndUpdateInstances Sample.order [Sample.node1Rotated; Sample.node2]
            (Sample.world Sample.oneNode)).2) !! "10.0.0.1"
  = registry.instances (reg (Sample.world Sample.oneNode)) !! "10.0.0.1".
Proof.
  apply diff_keeps_common_metadata; apply (bool_decide_unpack _); vm_compute; exact I.
Defined.

(** The credentials that changed on the address that did not are not
    stored, while the new node is. *)
Example diff_drops_rotated_credentials :
  let w' := (diffAndUpdateInstances Sample.order
               [Sample.node1Rotated; Sample.node2]
               (Sample.world Sample.oneNode)).2 in
  registry.instances (reg w') !! "10.0.0.1" = Some Sample.node1 ∧
  registry.instances (reg w') !! "10.0.0.22" = Some Sample.node2 ∧
  calls w' = [CallGetAllServices; CallRegisterService Sample.node2].
Proof. vm_compute. done. Qed.

Example diff_deregisters_gone :
  calls (diffAndUpdateInstances Sample.order [Sample.node2]
           (Sample.world Sample.twoNodes)).2
  = [CallGetAllServices; CallDeregisterService "10.0.0.1"].
Proof. vm_compute. done. Qed.

Lemma collectInstances_inspect_fails cli containers c acc :
  c ∈ containers →
  is_Err (client.ContainerInspect cli (types.ID c)) = true →
  ∃ e, collectInstances cli containers acc = Err e.
Proof.
  intros Hin Hfail. revert acc.
  induction containers as [|c' containers IH]; intros acc.
  - by apply elem_of_nil in Hin.
  - simpl. destruct (client.ContainerInspect cli (types.ID c')) as [info|e] eqn:Hi;
      [|by eauto].
    assert (c ∈ containers) as Hin'.
    { apply elem_of_cons in Hin as [->|]; [|done]. by rewrite Hi in Hfail. }
    destruct (negb _); [by apply IH|].
    destruct (negb _); by apply IH.
Qed.

(** C5. When the list of the entities fails, or the inspection of one of
    the listed entities fails, the pass returns an error and makes no
    call on the registry at all, so it does not reach
    [diffAndUpdateInstances]: the registry and the log of the calls are
    what they were. *)
Theorem refresh_failure_leaves_registry cli ord w :
  is_Err (client.ContainerList cli listFilter) = true ∨
  (∃ containers c,
     client.ContainerList cli listFilter = Ok containers ∧
     c ∈ containers ∧
     is_Err (client.ContainerInspect cli (types.ID c)) = true) →
  ∃ e, refreshInstances cli ord w = (Some e, w).
Proof.
  unfold refreshInstances.
  intros [Hlist|(containers & c & Hlist & Hin & Hfail)].
  - destruct (client.ContainerList cli listFilter); [done|]. by eauto.
  - rewrite Hlist.
    destruct (collectInstances_inspect_fails cli containers c [] Hin Hfail)
      as [e ->].
    by eauto.
Qed.

Lemma refresh_failure_leaves_registry_witness :
  ∃ e, refreshInstances Sample.dockerRace Sample.order
         (Sample.world Sample.oneNode)
       = (Some e, Sample.world Sample.oneNode).
Proof.
  apply refresh_failure_leaves_registry. right.
  exists Sample.listed, {| types.ID := "c2" |}.
  split; [reflexivity|]. split; [|reflexivity].
  unfold Sample.listed. repeat constructor.
Defined.

Lemma eligible_checks info :
  eligible info ↔
  negb (String.eqb (types.Status (types.State info)) "running") = false ∧
  negb (isValidServiceMetadata (getServiceMetadataFromContainer info)) = false.
Proof.
  unfold eligible, isValidServiceMetadata, nonEmpty.
  rewrite !negb_false_iff, !andb_true_iff, !negb_true_iff.
  rewrite String.eqb_eq, !String.eqb_neq. tauto.
Qed.

Lemma collectInstances_all_inspected cli containers infos acc :
  Forall2 (λ c info, client.ContainerInspect cli (types.ID c) = Ok info)
    containers infos →
  collectInstances cli containers acc
  = Ok (acc ++ (getServiceMetadataFromContainer <$> filter eligible infos)).
Proof.
  intros Hall. revert acc.
  induction Hall as [|c info containers infos Hi _ IH]; intros acc.
  - simpl. by rewrite app_nil_r.
  - simpl. rewrite Hi.
    pose proof (eligible_checks info) as He.
    destruct (negb (String.eqb _ _)).
    { rewrite filter_cons_False by (rewrite He; intros [? _]; done). apply IH. }
    destruct (negb (isValidServiceMetadata _)).
    { rewrite filter_cons_False by (rewrite He; intros [_ ?]; done). apply IH. }
    rewrite filter_cons_True by (by apply He).
    rewrite IH, fmap_cons. by rewrite <- app_assoc.
Qed.

(** C6. In a pass whose inspections succeed, an inspected entity is among
    the newly observed instances if and only if its status is "running"
    and its metadata has a non-empty identity, access key and secret
    key; the others are skipped and the pass does not fail: it goes on
    to the diff with the eligible ones, in the order of the list. *)
Theorem refresh_observes_eligible cli ord w containers infos :
  client.ContainerList cli listFilter = Ok containers →
  Forall2 (λ c info, client.ContainerInspect cli (types.ID c) = Ok info)
    containers infos →
  let observed := getServiceMetadataFromContainer <$> filter eligible infos in
  collectInstances cli containers [] = Ok observed ∧
  (∀ m, m ∈ observed ↔
        ∃ info, info ∈ infos ∧ eligible info ∧
                m = getServiceMetadataFromContainer info) ∧
  refreshInstances cli ord w
  = (None, (diffAndUpdateInstances ord observed w).2).
Proof.
  intros Hlist Hall observed.
  pose proof (collectInstances_all_inspected cli containers infos [] Hall) as Hc.
  simpl in Hc. fold observed in Hc. split_and!; [done| |].
  - intros m. unfold observed. rewrite list_elem_of_fmap.
    setoid_rewrite list_elem_of_filter. naive_solver.
  - unfold refreshInstances. rewrite Hlist, Hc.
    unfold mbind, State_bind.
    by destruct (diffAndUpdateInstances ord observed w) as [[] w'].
Qed.

Lemma refresh_observes_eligible_witness :
  collectInstances Sample.docker Sample.listed [] = Ok [Sample.node1] ∧
  (refreshInstances Sample.docker Sample.order
     (Sample.world Sample.emptyRegistry)).1 = None.
Proof.
  destruct (refresh_observes_eligible Sample.docker Sample.order
              (Sample.world Sample.emptyRegistry) Sample.listed
              [Sample.info1; Sample.info2; Sample.info3])
    as (Hc & _ & Hr).
  - reflexivity.
  - repeat constructor.
  - split; [exact Hc|]. by rewrite Hr.
Defined.

End RegistrarFacts.

(** ** The gateway: resolution of a key *)

Section GatewayFacts.

Import gateway.

Context (store : minio.ObjectStore).

Implicit Types (w : World store) (id bucket : string)
  (attempt : nat → Result registry.ServiceMetadata).

Lemma firstSuccess_Some attempt from n k instance :
  firstSuccess attempt from n = Some (k, instance) →
  from ≤ k < from + n ∧ attempt k = Ok instance ∧
  ∀ j, from ≤ j < k → is_Err (attempt j) = true.
Proof.
  revert from. induction n as [|n IH]; intros from; simpl; [done|].
  destruct (attempt from) as [i|e] eqn:Ha.
  - intros [= <- <-]. split_and!; [lia..|done|]. intros j ?. lia.
  - intros Hf. apply IH in Hf as (Hk & Hok & Hbefore).
    split_and!; [lia..|done|]. intros j Hj.
    destruct (decide (j = from)) as [->|]; [by rewrite Ha|].
    apply Hbefore. lia.
Qed.

Lemma firstSuccess_intro attempt from n k instance :
  from ≤ k < from + n →
  attempt k = Ok instance →
  (∀ j, from ≤ j < k → is_Err (attempt j) = true) →
  firstSuccess attempt from n = Some (k, instance).
Proof.
  revert from. induction n as [|n IH]; intros from Hk Hok Hbefore; [lia|].
  simpl. destruct (decide (k = from)) as [->|Hne].
  - by rewrite Hok.
  - destruct (attempt from) as [i|e] eqn:Ha.
    + specialize (Hbefore from ltac:(lia)). by rewrite Ha in Hbefore.
    + apply IH; [lia|done|]. intros j Hj. apply Hbefore. lia.
Qed.

Lemma firstSuccess_None attempt from n :
  firstSuccess attempt from n = None →
  ∀ j, from ≤ j < from + n → is_Err (attempt j) = true.
Proof.
  revert from. induction n as [|n IH]; intros from; simpl.
  - intros _ j ?. lia.
  - destruct (attempt from) as [i|e] eqn:Ha; [done|].
    intros Hf j Hj. destruct (decide (j = from)) as [->|]; [by rewrite Ha|].
    apply (IH _ Hf). lia.
Qed.

Lemma filter_isNew_retryTrace sleep id k :
  List.filter isNew (retryTrace sleep id k) = [].
Proof.
  unfold retryTrace. simpl.
  induction (seq 0 k) as [|j js IH]; [done|]. simpl. exact IH.
Qed.

(** The sleeps of a resolution: between 300 ms and 400 ms after the
    first failed attempt, between 600 ms and 700 ms after the second. *)
Lemma sleepAfter_bounds w :
  (300 * Millisecond ≤ sleepAfter store w 0 < 400 * Millisecond)%Z ∧
  (600 * Millisecond ≤ sleepAfter store w 1 < 700 * Millisecond)%Z.
Proof.
  unfold sleepAfter, CombineDelay.
  change (BackOffDelay retryDelay 0) with 300000000%Z.
  change (BackOffDelay retryDelay 1) with 600000000%Z.
  change DefaultMaxJitter with 100000000%Z.
  change maxInt64 with 9223372036854775807%Z.
  change Millisecond with 1000000%Z.
  pose proof (Z.mod_pos_bound (random w (drawn w + 0)) 100000000 ltac:(lia)).
  pose proof (Z.mod_pos_bound (random w (drawn w + 1)) 100000000 ltac:(lia)).
  lia.
Qed.

(** A resolution, by the first of its three attempts that succeeds. *)
Lemma getMatchingInstance_cases id w :
  let attempt k := registry.MatchService (registryAt w (reads w + k)) id in
  let run := getMatchingInstance store id w in
  registryAt run.2 = registryAt w ∧ backend run.2 = backend w ∧
  match firstSuccess attempt 0 3 with
  | Some (k, instance) =>
      trace run.2 = trace w ++ retryTrace (sleepAfter store w) id k
                      ++ [EvNew (endpointOf instance) (optionsOf instance)] ∧
      reads run.2 = reads w + S k ∧
      run.1 = clientFor store instance
  | None =>
      trace run.2 = trace w ++ retryTrace (sleepAfter store w) id 2 ∧
      reads run.2 = reads w + 3 ∧
      run.1 = Err (RetryError (attemptErrors attempt 3))
  end.
Proof.
  intros attempt run. subst run.
  unfold getMatchingInstance, retryDo, retryAttempts, retryLoop,
    matchAttempt, MatchService, RandomDelay, Sleep, log, mbind, State_bind,
    mret, State_ret, attemptErrors, clientFor, retryTrace, sleepAfter.
  cbn [firstSuccess seq flat_map app].
  subst attempt. cbv beta.
  rewrite !Nat.add_0_r.
  replace (reads w + 1) with (S (reads w)) by lia.
  replace (reads w + 2) with (S (S (reads w))) by lia.
  replace (drawn w + 1) with (S (drawn w)) by lia.
  cbn [fst snd registryAt reads random drawn trace backend].
  destruct (registry.MatchService (registryAt w (reads w)) id) as [i0|e0];
    cbn [fst snd registryAt reads random drawn trace backend].
  { destruct (minio.New store _ _);
      cbn [fst snd registryAt reads random drawn trace backend app];
      rewrite <- ?app_assoc; split_and!; try done; try (clear; lia);
      cbn [seq flat_map app]; by rewrite ?Nat.add_0_r, ?Nat.add_1_r. }
  destruct (registry.MatchService (registryAt w (S (reads w))) id) as [i1|e1];
    cbn [fst snd registryAt reads random drawn trace backend].
  { destruct (minio.New store _ _);
      cbn [fst snd registryAt reads random drawn trace backend app];
      rewrite <- ?app_assoc; split_and!; try done; try (clear; lia);
      cbn [seq flat_map app]; by rewrite ?Nat.add_0_r, ?Nat.add_1_r. }
  destruct (registry.MatchService (registryAt w (S (S (reads w)))) id) as [i2|e2];
    cbn [fst snd registryAt reads random drawn trace backend].
  { destruct (minio.New store _ _);
      cbn [fst snd registryAt reads random drawn trace backend app];
      rewrite <- ?app_assoc; split_and!; try done; try (clear; lia);
      cbn [seq flat_map app]; by rewrite ?Nat.add_0_r, ?Nat.add_1_r. }
  cbn [app]. rewrite <- ?app_assoc; split_and!; try done; try (clear; lia);
    cbn [seq flat_map app]; by rewrite ?Nat.add_0_r, ?Nat.add_1_r.
Qed.

Lemma clientFor_not_resolution_error instance e :
  clientFor store instance = Err e → ¬ isResolutionError e.
Proof.
  unfold clientFor. destruct (minio.New store _ _); [done|].
  intros [= <-] [errs ?]. done.
Qed.

(** C3 (amended). A resolution calls [MatchService] under a bounded
    retry policy of 3 attempts.  The wait between two consecutive
    attempts is not fixed: it is the configured 300 ms doubled at each
    retry, plus a random jitter below 100 ms, so between 300 ms and
    400 ms after the first failed attempt and between 600 ms and 700 ms
    after the second.  Either one of the three attempts succeeds, the
    attempts before it failed, and the client is built for the metadata
    that this attempt returned; or the three attempts failed and the
    error of the exhausted policy comes back.  That error comes back
    only when all the attempts failed. *)
Theorem getMatchingInstance_bounded_retry id w :
  let attempt k := registry.MatchService (registryAt w (reads w + k)) id in
  let run := getMatchingInstance store id w in
  let sleep := sleepAfter store w in
  retryAttempts = 3 ∧ retryDelay = (300 * Millisecond)%Z ∧
  (300 * Millisecond ≤ sleep 0%nat < 400 * Millisecond)%Z ∧
  (600 * Millisecond ≤ sleep 1%nat < 700 * Millisecond)%Z ∧
  ((∃ k instance,
      k < 3 ∧ attempt k = Ok instance ∧
      (∀ j, j < k → is_Err (attempt j) = true) ∧
      trace run.2 = trace w ++ retryTrace sleep id k
                      ++ [EvNew (endpointOf instance) (optionsOf instance)] ∧
      reads run.2 = reads w + S k ∧
      run.1 = clientFor store instance)
   ∨ ((∀ j, j < 3 → is_Err (attempt j) = true) ∧
      trace run.2 = trace w ++ retryTrace sleep id 2 ∧
      reads run.2 = reads w + 3 ∧
      run.1 = Err (RetryError (attemptErrors attempt 3)))) ∧
  ((∃ e, run.1 = Err e ∧ isResolutionError e) ↔
   (∀ j, j < 3 → is_Err (attempt j) = true)).
Proof.
  intros attempt run sleep.
  destruct (getMatchingInstance_cases id w) as (_ & _ & Hcases).
  fold attempt run sleep in Hcases.
  destruct (sleepAfter_bounds w) as [Hs0 Hs1].
  split; [done|]. split; [done|]. split; [done|]. split; [done|].
  destruct (firstSuccess attempt 0 3) as [[k instance]|] eqn:Hf.
  - apply firstSuccess_Some in Hf as (Hk & Hok & Hbefore).
    destruct Hcases as (Ht & Hr & Hres). split.
    + left. exists k, instance. split_and!; try done; [lia|].
      intros j Hj. apply Hbefore. lia.
    + split.
      * intros (e & He & Hre). rewrite Hres in He.
        by apply clientFor_not_resolution_error in He.
      * intros Hall. specialize (Hall k ltac:(lia)). by rewrite Hok in Hall.
  - pose proof (firstSuccess_None _ _ _ Hf) as Hall.
    destruct Hcases as (Ht & Hr & Hres).
    assert (∀ j, j < 3 → is_Err (attempt j) = true) as Hall'
      by (intros j Hj; apply Hall; lia).
    split; [right; done|]. split; [done|]. intros _.
    eexists. split; [exact Hres|]. by eexists.
Qed.

Lemma trace_onBackend {A} (op : State (minio.Backend store) A) w :
  trace (onBackend store op w).2 = trace w.
Proof. unfold onBackend. by destruct (op (backend w)). Qed.

(** The bucket and the data of a request reach the client only: the
    events of a request are those of the resolution of its id. *)
Lemma trace_GetObject bucket id w :
  trace (GetObject store bucket id w).2
  = trace (getMatchingInstance store id w).2.
Proof.
  unfold GetObject, mbind, State_bind, mret, State_ret.
  destruct (getMatchingInstance store id w) as [[c|e] w1]; [|done]. simpl.
  destruct (onBackend store _ w1) as [[o|e] w2] eqn:E1.
  - destruct (onBackend store (minio.ReadAll store o) w2) as [[d|e] w3] eqn:E2.
    + simpl. rewrite <- (trace_onBackend (minio.GetObject store c bucket id) w1), E1.
      simpl. rewrite <- (trace_onBackend (minio.ReadAll store o) w2), E2. done.
    + assert (trace w3 = trace w1) as <-.
      { rewrite <- (trace_onBackend (minio.GetObject store c bucket id) w1), E1.
        simpl. by rewrite <- (trace_onBackend (minio.ReadAll store o) w2), E2. }
      destruct (asErrorResponse e); [destruct (_ =? _)%Z|]; done.
  - simpl. by rewrite <- (trace_onBackend (minio.GetObject store c bucket id) w1), E1.
Qed.

Lemma trace_PutObject bucket id data w :
  trace (PutObject store bucket id data w).2
  = trace (getMatchingInstance store id w).2.
Proof.
  unfold PutObject, mbind, State_bind, mret, State_ret.
  destruct (getMatchingInstance store id w) as [[c|e] w1]; [|done]. simpl.
  pose proof (trace_onBackend (minio.BucketExists store c bucket) w1) as T1.
  destruct (onBackend store (minio.BucketExists store c bucket) w1)
    as [[ex|e] w2]; simpl in T1; [|done].
  rewrite <- T1. clear T1.
  destruct ex; simpl.
  - pose proof (trace_onBackend (minio.PutObject store c bucket id data) w2) as T3.
    by destruct (onBackend store (minio.PutObject store c bucket id data) w2)
      as [[e|] w4].
  - pose proof (trace_onBackend (minio.MakeBucket store c bucket) w2) as T2.
    destruct (onBackend store (minio.MakeBucket store c bucket) w2)
      as [[e|] w3]; simpl in T2; [done|].
    rewrite <- T2.
    pose proof (trace_onBackend (minio.PutObject store c bucket id data) w3) as T3.
    by destruct (onBackend store (minio.PutObject store c bucket id data) w3)
      as [[e|] w4].
Qed.

(** C10. When a resolution succeeds, that is when one of the three
    attempts on the object id returns a node, the client is constructed
    once, for the endpoint made of the address of that node and the port
    9000, with the access key and the secret key of the node as static
    credentials and without TLS, and the request returns that client
    (or the error of its construction).  A request constructs a client
    in its resolution only, whatever its bucket and its data. *)
Theorem client_built_for_resolved_node id w k instance :
  k < 3 →
  registry.MatchService (registryAt w (reads w + k)) id = Ok instance →
  (∀ j, j < k →
        is_Err (registry.MatchService (registryAt w (reads w + j)) id) = true) →
  let endpoint := registry.IPAddress instance +:+ ":9000" in
  let opts :=
    {| minio.Creds :=
         {| minio.accessKeyID := registry.AccessKey instance;
            minio.secretAccessKey := registry.SecretKey instance;
            minio.sessionToken := "" |};
       minio.Secure := false |} in
  (getMatchingInstance store id w).1
  = match minio.New store endpoint opts with
    | Ok minioInstance => Ok minioInstance
    | Err e => Err (Wrapf "failed to create minio client" e)
    end ∧
  List.filter isNew (trace (getMatchingInstance store id w).2)
  = List.filter isNew (trace w) ++ [EvNew endpoint opts] ∧
  (∀ bucket, trace (GetObject store bucket id w).2
             = trace (getMatchingInstance store id w).2) ∧
  (∀ bucket data, trace (PutObject store bucket id data w).2
                  = trace (getMatchingInstance store id w).2).
Proof.
  intros Hk Hok Hbefore endpoint opts.
  split_and!; [| |intros; apply trace_GetObject|intros; apply trace_PutObject].
  all: destruct (getMatchingInstance_cases id w) as (_ & _ & Hcases).
  all: rewrite (firstSuccess_intro _ 0 3 k instance) in Hcases;
    [|lia|done|by intros j ?; apply Hbefore; lia].
  all: destruct Hcases as (Ht & _ & Hres).
  - done.
  - by rewrite Ht, !List.filter_app, filter_isNew_retryTrace.
Qed.

End GatewayFacts.

Lemma getMatchingInstance_bounded_retry_witness :
  ∃ e, (gateway.getMatchingInstance Sample.memoryStore "k1"
          (Sample.request Sample.ringOnly)).1 = Err e
       ∧ gateway.isResolutionError e.
Proof.
  destruct (getMatchingInstance_bounded_retry Sample.memoryStore "k1"
              (Sample.request Sample.ringOnly)) as (_ & _ & _ & Hiff).
  apply Hiff. intros j Hj.
  destruct j as [|[|[|j]]]; [reflexivity..|lia].
Defined.

Lemma client_built_for_resolved_node_witness :
  (gateway.getMatchingInstance Sample.memoryStore "abc123" Sample.lateRequest).1
  = Ok ("10.0.0.1:9000",
        {| minio.Creds := minio.NewStaticV4 "ring" "treepotato" "";
           minio.Secure := false |}).
Proof.
  destruct (client_built_for_resolved_node Sample.memoryStore "abc123"
              Sample.lateRequest 2 Sample.node1) as (Hres & _).
  - lia.
  - reflexivity.
  - intros j Hj. destruct j as [|[|j]]; [reflexivity..|lia].
  - exact Hres.
Defined.

(** Against the claim C3 as first stated: the waits of a resolution are
    not all of 300 ms.  On a request whose first two attempts fail, the
    resolution sleeps 311 ms and then 649 ms. *)
Lemma getMatchingInstance_fixed_delay_counterexample :
  ¬ (∀ d,
       d ∈ gateway.sleepsOf
             (gateway.trace
                (gateway.getMatchingInstance Sample.memoryStore "k1"
                   Sample.lateRequest).2) →
       d = (300 * gateway.Millisecond)%Z).
Proof.
  intros Hfixed. specialize (Hfixed 649000000%Z).
  assert (649000000%Z = (300 * gateway.Millisecond)%Z) as Habs; [|done].
  apply Hfixed. vm_compute. repeat constructor.
Qed.

Example resolution_sleeps :
  gateway.sleepsOf
    (gateway.trace
       (gateway.getMatchingInstance Sample.memoryStore "k1"
          Sample.lateRequest).2)
  = [311000000; 649000000]%Z.
Proof. vm_compute. reflexivity. Qed.

(** A late registration is absorbed by the third attempt, and a put
    followed by a get of the same object returns the data. *)
Example resolution_absorbs_late_registration :
  gateway.trace
    (gateway.getMatchingInstance Sample.memoryStore "k1" Sample.lateRequest).2
  = [gateway.EvMatchService "k1"; gateway.EvSleep 311000000;
     gateway.EvMatchService "k1"; gateway.EvSleep 649000000;
     gateway.EvMatchService "k1";
     gateway.EvNew "10.0.0.1:9000"
       {| minio.Creds := minio.NewStaticV4 "ring" "treepotato" "";
          minio.Secure := false |}].
Proof. vm_compute. reflexivity. Qed.

Example put_then_get :
  let w1 := (gateway.PutObject Sample.memoryStore "b" "abc123" "X"
               (Sample.request Sample.oneNode)).2 in
  (gateway.GetObject Sample.memoryStore "b" "abc123" w1).1 = Ok "X".
Proof. vm_compute. reflexivity. Qed.

Example get_missing_object :
  (gateway.GetObject Sample.memoryStore "b" "abc123"
     (Sample.request Sample.oneNode)).1 = Err NotFoundError.
Proof. vm_compute. reflexivity. Qed.

(** ** Validation of the object id *)

Section ValidationFacts.

Import app.

Implicit Types (id s : string) (c : ascii).

Lemma inClass_spec c : inClass c = true ↔ asciiAlphanumeric c.
Proof.
  unfold inClass, asciiAlphanumeric.
  change (nat_of_ascii "a") with 97. change (nat_of_ascii "z") with 122.
  change (nat_of_ascii "A") with 65. change (nat_of_ascii "Z") with 90.
  change (nat_of_ascii "0") with 48. change (nat_of_ascii "9") with 57.
  rewrite !orb_true_iff, !andb_true_iff, !Nat.leb_le. tauto.
Qed.

Lemma allInClass_spec s :
  allInClass s = true ↔ Forall asciiAlphanumeric (String.list_ascii_of_string s).
Proof.
  induction s as [|c s IH]; simpl.
  - split; [constructor|done].
  - rewrite andb_true_iff, Forall_cons, inClass_spec, IH. done.
Qed.

Lemma isAlphanumeric_spec s :
  isAlphanumeric s = true ↔
  (1 ≤ String.length s)%nat ∧ Forall asciiAlphanumeric (String.list_ascii_of_string s).
Proof.
  destruct s as [|c s].
  - simpl. split; [done|]. intros [? _]. lia.
  - change (isAlphanumeric (String c s)) with (allInClass (String c s)).
    rewrite allInClass_spec. simpl. split; [|tauto]. intros ?. split; [lia|done].
Qed.

Lemma validateID_None id :
  validateID id = None ↔
  (1 ≤ String.length id ≤ 32)%nat ∧
  Forall asciiAlphanumeric (String.list_ascii_of_string id).
Proof.
  unfold validateID.
  destruct (Nat.ltb_spec 32 (String.length id)) as [Hlong|Hshort].
  - split; [done|]. intros [? _]. lia.
  - destruct (isAlphanumeric id) eqn:Ha; simpl.
    + apply isAlphanumeric_spec in Ha as [? ?]. split; [|done].
      intros _. split; [lia|done].
    + split; [done|]. intros [? ?].
      assert (isAlphanumeric id = true) by (apply isAlphanumeric_spec; split; [lia|done]).
      congruence.
Qed.

(** C8. [validateID] accepts an id if and only if it has 1 to 32
    characters, all of them ASCII letters or digits.  So an id of 32
    letters and digits is accepted, an id of length 33 is rejected, and
    an id that holds a character which is not a letter or a digit, such
    as a hyphen or a white space, is rejected, as is the empty id. *)
Theorem validateID_accepts_iff id :
  (validateID id = None ↔
     (1 ≤ String.length id ≤ 32)%nat ∧
     Forall asciiAlphanumeric (String.list_ascii_of_string id)) ∧
  (String.length id = 32 →
     Forall asciiAlphanumeric (String.list_ascii_of_string id) → validateID id = None) ∧
  (String.length id = 33 → validateID id ≠ None) ∧
  (∀ c, c ∈ String.list_ascii_of_string id → ¬ asciiAlphanumeric c →
        validateID id ≠ None) ∧
  validateID "" ≠ None ∧
  ¬ asciiAlphanumeric "-" ∧ ¬ asciiAlphanumeric " " ∧
  ¬ asciiAlphanumeric "009" ∧ ¬ asciiAlphanumeric "010" ∧
  ¬ asciiAlphanumeric "013".
Proof.
  split_and!.
  - apply validateID_None.
  - intros Hlen Hall. apply validateID_None. split; [lia|done].
  - intros Hlen Hv. apply validateID_None in Hv as [? _]. lia.
  - intros c Hc Hnot Hv. apply validateID_None in Hv as [_ Hall].
    rewrite Forall_forall in Hall. by apply Hnot, Hall.
  - done.
  - unfold asciiAlphanumeric. vm_compute. lia.
  - unfold asciiAlphanumeric. vm_compute. lia.
  - unfold asciiAlphanumeric. vm_compute. lia.
  - unfold asciiAlphanumeric. vm_compute. lia.
  - unfold asciiAlphanumeric. vm_compute. lia.
Qed.

Lemma validateID_accepts_iff_witness :
  validateID "abcdefghijklmnopqrstuvwxyz0123456" ≠ None ∧
  validateID "abc-123" ≠ None.
Proof.
  split.
  - destruct (validateID_accepts_iff "abcdefghijklmnopqrstuvwxyz0123456")
      as (_ & _ & Hlong & _).
    apply Hlong. reflexivity.
  - destruct (validateID_accepts_iff "abc-123") as (_ & _ & _ & Hchar & _).
    apply (Hchar "-"%char).
    + simpl. repeat constructor.
    + unfold asciiAlphanumeric. vm_compute. lia.
Defined.

Example validateID_boundaries :
  validateID "abcdefghijklmnopqrstuvwxyz012345" = None ∧
  validateID "abcdefghijklmnopqrstuvwxyz0123456" = Some (Errorf "id is too long") ∧
  validateID "abc-123" = Some (Errorf "id contains invalid characters") ∧
  validateID "abc 123" = Some (Errorf "id contains invalid characters") ∧
  validateID "" = Some (Errorf "id contains invalid characters") ∧
  validateID "abc123" = None.
Proof. vm_compute. done. Qed.

End ValidationFacts.

(** ** Laws of the registry *)

Section RegistryLaws.

Import registry.

Implicit Types (r : Registry) (m : ServiceMetadata) (key ip : string).

Lemma Registry_eq r1 r2 :
  Hash.hashFunc (hash r1) = Hash.hashFunc (hash r2) →
  Hash.nodes (hash r1) = Hash.nodes (hash r2) →
  instances r1 = instances r2 →
  r1 = r2.
Proof.
  destruct r1 as [[f1 n1] i1], r2 as [[f2 n2] i2]; simpl. by intros -> -> ->.
Qed.

Lemma consistent_New fn :
  consistent (NewRegistry (Hash.NewCustomConsistentHash fn)).
Proof.
  split.
  - intros k v. cbn [NewRegistry instances]. by rewrite lookup_empty.
  - cbn [NewRegistry Hash.NewCustomConsistentHash hash instances Hash.nodes].
    by rewrite dom_empty_L.
Qed.

Lemma consistent_Register r m : consistent r → consistent (RegisterService m r).
Proof.
  intros [Hkeyed Hring]. split.
  - intros k v. cbn [RegisterService instances].
    destruct (decide (IPAddress m = k)) as [<-|Hne].
    + rewrite lookup_insert_eq. by intros [= <-].
    + rewrite lookup_insert_ne by done. apply Hkeyed.
  - cbn [RegisterService hash instances]. rewrite nodes_Add, dom_insert_L.
    by rewrite Hring.
Qed.

Lemma consistent_Deregister r ip :
  consistent r → consistent (DeregisterService ip r).
Proof.
  intros [Hkeyed Hring]. split.
  - intros k v. cbn [DeregisterService instances].
    destruct (decide (ip = k)) as [<-|Hne].
    + by rewrite lookup_delete_eq.
    + rewrite lookup_delete_ne by done. apply Hkeyed.
  - cbn [DeregisterService Hash.Remove hash instances Hash.nodes].
    by rewrite dom_delete_L, Hring.
Qed.

Lemma consistent_twoNodes : consistent Sample.twoNodes.
Proof. do 2 apply consistent_Register. apply consistent_New. Qed.

(** X1. The steady state of the registry is an invariant of its
    operations: a new registry over an empty ring is consistent, and
    [RegisterService] and [DeregisterService] keep a consistent registry
    consistent. *)
Theorem consistent_preserved :
  (∀ fn, consistent (NewRegistry (Hash.NewCustomConsistentHash fn))) ∧
  (∀ r m, consistent r → consistent (RegisterService m r)) ∧
  (∀ r ip, consistent r → consistent (DeregisterService ip r)).
Proof.
  split_and!;
    [apply consistent_New|apply consistent_Register|apply consistent_Deregister].
Qed.

Lemma consistent_preserved_witness :
  consistent (DeregisterService "10.0.0.1" Sample.twoNodes).
Proof.
  destruct consistent_preserved as (Hnew & Hreg & Hdereg).
  apply Hdereg. do 2 apply Hreg. apply Hnew.
Defined.

(** X2. On a consistent registry [MatchService] fails only when no node
    is registered; and what it returns is the entry stored under the
    identity that the ring names for the key. *)
Theorem MatchService_consistent r key :
  consistent r →
  (is_Err (MatchService r key) = true ↔ instances r = ∅) ∧
  (∀ m, MatchService r key = Ok m →
        Hash.Get (hash r) key = Some (IPAddress m) ∧
        instances r !! IPAddress m = Some m).
Proof.
  intros [Hkeyed Hring]. unfold MatchService, instancesGet.
  destruct (Hash.Get (hash r) key) as [ip|] eqn:G.
  - pose proof (Get_Some_node _ _ _ G) as Hnode.
    rewrite Hring, elem_of_dom in Hnode. destruct Hnode as [v Hv].
    rewrite Hv. simpl. split.
    + split; [done|]. intros Hempty. by rewrite Hempty, lookup_empty in Hv.
    + intros m [= <-]. by rewrite (Hkeyed _ _ Hv).
  - simpl. split; [|done]. split; [|done]. intros _.
    apply Get_None_iff in G. unfold Hash.isEmpty in G.
    rewrite Hring in G. by apply dom_empty_iff_L.
Qed.

Lemma MatchService_consistent_witness :
  is_Err (MatchService Sample.twoNodes "k1") = true ↔
  instances Sample.twoNodes = ∅.
Proof.
  apply MatchService_consistent. apply consistent_twoNodes.
Defined.

(** X3. A deregistration cancels a registration of the same identity
    made just before it; so registering a node that the registry did not
    know and deregistering it gives the registry back as it was. *)
Theorem deregister_after_register r m :
  DeregisterService (IPAddress m) (RegisterService m r)
  = DeregisterService (IPAddress m) r ∧
  (instances r !! IPAddress m = None →
   IPAddress m ∉ Hash.nodes (hash r) →
   DeregisterService (IPAddress m) (RegisterService m r) = r).
Proof.
  split.
  - apply Registry_eq; simpl; [done|set_solver|apply delete_insert_eq].
  - intros Hnone Hnot. apply Registry_eq; simpl; [done|set_solver|].
    by apply delete_insert_id.
Qed.

Lemma deregister_after_register_witness :
  DeregisterService "10.0.0.22" (RegisterService Sample.node2 Sample.oneNode)
  = Sample.oneNode.
Proof.
  apply (deregister_after_register Sample.oneNode Sample.node2).
  - reflexivity.
  - apply (bool_decide_unpack _). vm_compute. exact I.
Defined.

(** X4. [RegisterService] is an upsert: a registration replaces a former
    registration of the same identity, whatever the rest of the metadata,
    and the metadata stored for the identity is the one registered last. *)
Theorem register_overwrites r m m' :
  IPAddress m' = IPAddress m →
  RegisterService m' (RegisterService m r) = RegisterService m' r ∧
  instances (RegisterService m' (RegisterService m r)) !! IPAddress m = Some m'.
Proof.
  intros Hip. split.
  - apply Registry_eq; simpl; [done|rewrite Hip; set_solver|].
    rewrite Hip. apply insert_insert_eq.
  - simpl. rewrite Hip. apply lookup_insert_eq.
Qed.

Lemma register_overwrites_witness :
  instances (RegisterService Sample.node1Rotated Sample.oneNode) !! "10.0.0.1"
  = Some Sample.node1Rotated.
Proof.
  apply (register_overwrites Sample.emptyRegistry Sample.node1 Sample.node1Rotated).
  reflexivity.
Defined.

(** X5. Operations on different identities commute: two registrations,
    a registration and a deregistration, and (on any identities) two
    deregistrations give the same registry in either order. *)
Theorem operations_commute r :
  (∀ m1 m2, IPAddress m1 ≠ IPAddress m2 →
     RegisterService m1 (RegisterService m2 r)
     = RegisterService m2 (RegisterService m1 r)) ∧
  (∀ m ip, ip ≠ IPAddress m →
     DeregisterService ip (RegisterService m r)
     = RegisterService m (DeregisterService ip r)) ∧
  (∀ ip1 ip2,
     DeregisterService ip1 (DeregisterService ip2 r)
     = DeregisterService ip2 (DeregisterService ip1 r)).
Proof.
  split_and!.
  - intros m1 m2 Hne. apply Registry_eq; simpl; [done|set_solver|].
    by apply insert_insert_ne.
  - intros m ip Hne. apply Registry_eq; simpl; [done|set_solver|].
    by apply delete_insert_ne.
  - intros ip1 ip2. apply Registry_eq; simpl; [done|set_solver|].
    apply delete_delete.
Qed.

Lemma operations_commute_witness :
  RegisterService Sample.node1 (RegisterService Sample.node2 Sample.emptyRegistry)
  = Sample.twoNodes.
Proof.
  destruct (operations_commute Sample.emptyRegistry) as (Hreg & _).
  apply (Hreg Sample.node1 Sample.node2). by vm_compute.
Defined.

Lemma fmap_snd_keyed (l : list (string * ServiceMetadata)) :
  (∀ k v, (k, v) ∈ l → IPAddress v = k) →
  IPAddress <$> l.*2 = l.*1.
Proof.
  induction l as [|[k v] l IH]; intros Hl; [done|].
  simpl. rewrite (Hl k v) by set_solver. f_equal. apply IH.
  intros k' v' Hin. apply Hl. set_solver.
Qed.

(** X6. [GetAllServices] returns the stored entries, each once: its
    length is the number of entries; an empty registry gives the empty
    list; and when the entries are stored under their identities, no
    identity comes twice and the identities are the keys of the map. *)
Theorem GetAllServices_lists_entries r :
  (∀ m, m ∈ GetAllServices r ↔ ∃ k, instances r !! k = Some m) ∧
  length (GetAllServices r) = size (instances r) ∧
  (instances r = ∅ → GetAllServices r = []) ∧
  (keyed r →
     NoDup (IPAddress <$> GetAllServices r) ∧
     list_to_set (IPAddress <$> GetAllServices r) = dom (instances r)).
Proof.
  unfold GetAllServices. split_and!.
  - intros m. rewrite list_elem_of_fmap. split.
    + intros ([k v] & -> & Hin). exists k. by apply elem_of_map_to_list.
    + intros [k Hk]. exists (k, m). split; [done|]. by apply elem_of_map_to_list.
  - by rewrite length_fmap, length_map_to_list.
  - intros ->. by rewrite map_to_list_empty.
  - intros Hkeyed.
    rewrite fmap_snd_keyed
      by (intros k v Hin; apply (Hkeyed k v); by apply elem_of_map_to_list).
    split; [apply NoDup_fst_map_to_list|].
    apply set_eq. intros k.
    rewrite elem_of_list_to_set, elem_of_dom, list_elem_of_fmap. split.
    + intros ([k' v] & -> & Hin). exists v. by apply elem_of_map_to_list.
    + intros [v Hv]. exists (k, v). split; [done|]. by apply elem_of_map_to_list.
Qed.

Lemma GetAllServices_lists_entries_witness :
  NoDup (IPAddress <$> GetAllServices Sample.twoNodes).
Proof.
  destruct (GetAllServices_lists_entries Sample.twoNodes) as (_ & _ & _ & Hkeyed).
  apply Hkeyed. apply consistent_twoNodes.
Defined.

End RegistryLaws.

(** ** The result of a reconciliation pass *)

Section PassResult.

Import registrar.

Implicit Types (w : World) (cs : list Call) (ip : string)
  (r : registry.Registry) (cur : gset string)
  (new : gmap string registry.ServiceMetadata)
  (l newInstances : list registry.ServiceMetadata).

Lemma foldl_registerPlan_instances cur new keys r ip :
  (∀ k v, new !! k = Some v → registry.IPAddress v = k) →
  registry.instances (foldl applyCall r (registerPlan cur new keys)) !! ip
  = if decide (ip ∈ keys ∧ is_Some (new !! ip) ∧ ip ∉ cur) then new !! ip
    else registry.instances r !! ip.
Proof.
  intros Hnew. revert r. induction keys as [|k keys IH]; intros r.
  - rewrite decide_False; [done|]. intros [H _]. by apply elem_of_nil in H.
  - rewrite registerPlan_cons, foldl_app, IH. clear IH.
    destruct (decide (ip ∈ keys ∧ is_Some (new !! ip) ∧ ip ∉ cur)) as [Hin|Hnin].
    { rewrite decide_True; [done|]. set_solver. }
    destruct (new !! k) as [v|] eqn:Hv; [destruct (decide (k ∈ cur))|];
      cbn [foldl applyCall registry.RegisterService registry.instances].
    + rewrite decide_False; [done|]. intros (Hk & Hs & Hc).
      apply elem_of_cons in Hk as [->|Hk]; [done|]. tauto.
    + rewrite (Hnew _ _ Hv). destruct (decide (ip = k)) as [->|Hne].
      * rewrite decide_True by (rewrite Hv; set_solver).
        by rewrite lookup_insert_eq.
      * rewrite lookup_insert_ne by done.
        rewrite decide_False; [done|]. intros (Hk & Hs & Hc).
        apply elem_of_cons in Hk as [->|Hk]; [done|]. tauto.
    + rewrite decide_False; [done|]. intros (Hk & Hs & Hc).
      apply elem_of_cons in Hk as [->|Hk]; [|tauto].
      rewrite Hv in Hs. by destruct Hs.
Qed.

Lemma foldl_deregisterPlan_instances new keys r ip :
  registry.instances (foldl applyCall r (deregisterPlan new keys)) !! ip
  = if decide (ip ∈ keys ∧ ¬ is_Some (new !! ip)) then None
    else registry.instances r !! ip.
Proof.
  revert r. induction keys as [|k keys IH]; intros r.
  - rewrite decide_False; [done|]. intros [H _]. by apply elem_of_nil in H.
  - rewrite deregisterPlan_cons, foldl_app, IH. clear IH.
    destruct (decide (ip ∈ keys ∧ ¬ is_Some (new !! ip))) as [Hin|Hnin].
    { rewrite decide_True; [done|]. set_solver. }
    destruct (decide (is_Some (new !! k))) as [Hs|Hs];
      cbn [foldl applyCall registry.DeregisterService registry.instances].
    + rewrite decide_False; [done|]. intros (Hk & Hn).
      apply elem_of_cons in Hk as [->|Hk]; [done|]. tauto.
    + destruct (decide (ip = k)) as [->|Hne].
      * rewrite decide_True by set_solver. by rewrite lookup_delete_eq.
      * rewrite lookup_delete_ne by done.
        rewrite decide_False; [done|]. intros (Hk & Hn).
        apply elem_of_cons in Hk as [->|Hk]; [done|]. tauto.
Qed.

Lemma foldl_registerPlan_nodes cur new keys r ip :
  (∀ k v, new !! k = Some v → registry.IPAddress v = k) →
  ip ∈ Hash.nodes (registry.hash (foldl applyCall r (registerPlan cur new keys)))
  ↔ ip ∈ Hash.nodes (registry.hash r)
    ∨ (ip ∈ keys ∧ is_Some (new !! ip) ∧ ip ∉ cur).
Proof.
  intros Hnew. revert r. induction keys as [|k keys IH]; intros r.
  - simpl. set_solver.
  - rewrite registerPlan_cons, foldl_app, IH. clear IH.
    destruct (new !! k) as [v|] eqn:Hv; [destruct (decide (k ∈ cur))|];
      cbn [foldl applyCall registry.RegisterService registry.hash].
    + set_solver.
    + rewrite nodes_Add, (Hnew _ _ Hv).
      assert (is_Some (new !! k)) by (by rewrite Hv).
      set_solver.
    + assert (¬ is_Some (new !! k)) by (rewrite Hv; by intros [? ?]).
      set_solver.
Qed.

Lemma foldl_deregisterPlan_nodes new keys r ip :
  ip ∈ Hash.nodes (registry.hash (foldl applyCall r (deregisterPlan new keys)))
  ↔ ip ∈ Hash.nodes (registry.hash r)
    ∧ ¬ (ip ∈ keys ∧ ¬ is_Some (new !! ip)).
Proof.
  revert r. induction keys as [|k keys IH]; intros r.
  - simpl. set_solver.
  - rewrite deregisterPlan_cons, foldl_app, IH. clear IH.
    destruct (decide (is_Some (new !! k))) as [Hs|Hs];
      cbn [foldl applyCall registry.DeregisterService registry.hash
             Hash.Remove Hash.nodes].
    + set_solver.
    + set_solver.
Qed.

Lemma foldl_applyCall_hashFunc cs r :
  Hash.hashFunc (registry.hash (foldl applyCall r cs))
  = Hash.hashFunc (registry.hash r).
Proof.
  revert r. induction cs as [|c cs IH]; intros r; [done|].
  simpl. rewrite IH. by destruct c.
Qed.

Lemma pass_instances ord newInstances w ip :
  registry.instances (reg (diffAndUpdateInstances ord newInstances w).2) !! ip
  = if decide (ip ∈ identitiesOf newInstances
                 ∖ identitiesOf (registry.GetAllServices (reg w)))
    then newSetOf newInstances !! ip
    else if decide (ip ∈ identitiesOf (registry.GetAllServices (reg w))
                        ∖ identitiesOf newInstances)
         then None
         else registry.instances (reg w) !! ip.
Proof.
  rewrite diffAndUpdateInstances_run. unfold passCalls.
  cbn [snd afterCalls reg foldl applyCall]. rewrite foldl_app.
  rewrite foldl_deregisterPlan_instances, foldl_registerPlan_instances
    by (intros k v Hkv; by apply newSetOf_lookup in Hkv as [? _]).
  rewrite !currentSetOf_identities.
  set (A := identitiesOf (registry.GetAllServices (reg w))).
  set (B := identitiesOf newInstances).
  assert (ip ∈ rangeKeys (newOrder ord) (dom (newSetOf newInstances)) ↔ ip ∈ B)
    as H1 by (by rewrite elem_of_rangeKeys, dom_newSetOf).
  pose proof (elem_of_rangeKeys (currentOrder ord) A ip) as H2.
  pose proof (newSetOf_is_Some newInstances ip) as HB. fold B in HB.
  repeat case_decide.
  all: repeat match goal with
         | H : context [_ ∈ _ ∖ _] |- _ => rewrite elem_of_difference in H
         end.
  all: try done.
  all: exfalso; tauto.
Qed.

Lemma pass_nodes ord newInstances w ip :
  ip ∈ Hash.nodes (registry.hash (reg (diffAndUpdateInstances ord newInstances w).2))
  ↔ (ip ∈ Hash.nodes (registry.hash (reg w))
     ∨ ip ∈ identitiesOf newInstances
              ∖ identitiesOf (registry.GetAllServices (reg w)))
    ∧ ip ∉ identitiesOf (registry.GetAllServices (reg w))
             ∖ identitiesOf newInstances.
Proof.
  rewrite diffAndUpdateInstances_run. unfold passCalls.
  cbn [snd afterCalls reg foldl applyCall]. rewrite foldl_app.
  rewrite foldl_deregisterPlan_nodes, foldl_registerPlan_nodes
    by (intros k v Hkv; by apply newSetOf_lookup in Hkv as [? _]).
  rewrite !currentSetOf_identities.
  set (A := identitiesOf (registry.GetAllServices (reg w))).
  set (B := identitiesOf newInstances).
  rewrite !elem_of_rangeKeys, dom_newSetOf, !elem_of_difference.
  pose proof (newSetOf_is_Some newInstances ip) as HB. fold B in HB.
  tauto.
Qed.

Lemma pass_hashFunc ord newInstances w :
  Hash.hashFunc (registry.hash (reg (diffAndUpdateInstances ord newInstances w).2))
  = Hash.hashFunc (registry.hash (reg w)).
Proof.
  rewrite diffAndUpdateInstances_run. cbn [snd afterCalls reg].
  apply foldl_applyCall_hashFunc.
Qed.

Lemma identities_keyed r :
  registry.keyed r →
  identitiesOf (registry.GetAllServices r) = dom (registry.instances r).
Proof.
  intros Hkeyed. unfold identitiesOf, registry.GetAllServices.
  rewrite fmap_snd_keyed
    by (intros k v Hin; apply (Hkeyed k v); by apply elem_of_map_to_list).
  apply set_eq. intros k.
  rewrite elem_of_list_to_set, elem_of_dom, list_elem_of_fmap. split.
  - intros ([k' v] & -> & Hin). exists v. by apply elem_of_map_to_list.
  - intros [v Hv]. exists (k, v). split; [done|]. by apply elem_of_map_to_list.
Qed.

Lemma pass_keyed ord newInstances w :
  registry.keyed (reg w) →
  registry.keyed (reg (diffAndUpdateInstances ord newInstances w).2).
Proof.
  intros Hkeyed k v. rewrite pass_instances.
  repeat case_decide; [|done|apply Hkeyed].
  intros Hkv. by apply newSetOf_lookup in Hkv as [? _].
Qed.

Lemma pass_dom ord newInstances w :
  registry.keyed (reg w) →
  dom (registry.instances (reg (diffAndUpdateInstances ord newInstances w).2))
  = identitiesOf newInstances.
Proof.
  intros Hkeyed. apply set_eq. intros ip.
  rewrite elem_of_dom, pass_instances, (identities_keyed _ Hkeyed).
  pose proof (newSetOf_is_Some newInstances ip) as HB.
  pose proof (elem_of_dom (registry.instances (reg w)) ip) as HA.
  repeat case_decide.
  all: repeat match goal with
         | H : context [_ ∈ _ ∖ _] |- _ => rewrite elem_of_difference in H
         end.
  - exact HB.
  - split; [by intros [? ?]|tauto].
  - rewrite <- HA.
    destruct (decide (ip ∈ dom (registry.instances (reg w))));
      destruct (decide (ip ∈ identitiesOf newInstances)); tauto.
Qed.

Lemma pass_ring ord newInstances w :
  registry.consistent (reg w) →
  Hash.nodes (registry.hash (reg (diffAndUpdateInstances ord newInstances w).2))
  = identitiesOf newInstances.
Proof.
  intros [Hkeyed Hring]. apply set_eq. intros ip.
  rewrite pass_nodes, (identities_keyed _ Hkeyed), Hring, !elem_of_difference.
  destruct (decide (ip ∈ dom (registry.instances (reg w))));
    destruct (decide (ip ∈ identitiesOf newInstances)); tauto.
Qed.

(** X7. The registry that a pass leaves, identity by identity: an
    identity newly observed gets the entry built from the observed
    instances, an identity no longer observed loses its entry, every
    other entry is as it was; the ring gains the first and loses the
    second; the hash function of the ring is not changed. *)
Theorem diff_result ord newInstances w ip :
  let A := identitiesOf (registry.GetAllServices (reg w)) in
  let B := identitiesOf newInstances in
  let r' := reg (diffAndUpdateInstances ord newInstances w).2 in
  registry.instances r' !! ip
  = (if decide (ip ∈ B ∖ A) then newSetOf newInstances !! ip
     else if decide (ip ∈ A ∖ B) then None
          else registry.instances (reg w) !! ip) ∧
  (ip ∈ Hash.nodes (registry.hash r')
   ↔ (ip ∈ Hash.nodes (registry.hash (reg w)) ∨ ip ∈ B ∖ A) ∧ ip ∉ A ∖ B) ∧
  Hash.hashFunc (registry.hash r') = Hash.hashFunc (registry.hash (reg w)).
Proof.
  intros A B r'. split_and!;
    [apply pass_instances|apply pass_nodes|apply pass_hashFunc].
Qed.

(** X8. The registry that a pass leaves does not depend on the order in
    which the two maps are ranged over. *)
Theorem diff_order_irrelevant ord1 ord2 newInstances w :
  reg (diffAndUpdateInstances ord1 newInstances w).2
  = reg (diffAndUpdateInstances ord2 newInstances w).2.
Proof.
  apply Registry_eq.
  - by rewrite !pass_hashFunc.
  - apply set_eq. intros ip. by rewrite !pass_nodes.
  - apply map_eq. intros ip. by rewrite !pass_instances.
Qed.

(** X9. A pass converges: on a consistent registry it leaves a
    consistent registry whose entries and whose ring are exactly the
    identities of the observed instances. *)
Theorem diff_converges ord newInstances w :
  registry.consistent (reg w) →
  let r' := reg (diffAndUpdateInstances ord newInstances w).2 in
  registry.consistent r' ∧
  dom (registry.instances r') = identitiesOf newInstances ∧
  Hash.nodes (registry.hash r') = identitiesOf newInstances.
Proof.
  intros Hc r'. pose proof Hc as [Hkeyed _].
  split_and!.
  - split; [by apply pass_keyed|].
    unfold r'. by rewrite pass_ring, pass_dom.
  - by apply pass_dom.
  - by apply pass_ring.
Qed.

Lemma diff_converges_witness :
  dom (registry.instances
         (reg (diffAndUpdateInstances Sample.order [Sample.node2]
                 (Sample.world Sample.twoNodes)).2))
  = identitiesOf [Sample.node2].
Proof.
  apply (diff_converges Sample.order [Sample.node2] (Sample.world Sample.twoNodes)).
  apply consistent_twoNodes.
Defined.

Lemma registerPlan_quiet cur new keys :
  (∀ k, k ∈ keys → k ∈ cur) → registerPlan cur new keys = [].
Proof.
  induction keys as [|k keys IH]; intros Hall; [done|].
  rewrite registerPlan_cons, IH by set_solver.
  destruct (new !! k); [|done]. rewrite decide_True; [done|]. set_solver.
Qed.

Lemma deregisterPlan_quiet new keys :
  (∀ k, k ∈ keys → is_Some (new !! k)) → deregisterPlan new keys = [].
Proof.
  induction keys as [|k keys IH]; intros Hall; [done|].
  rewrite deregisterPlan_cons, IH by set_solver.
  rewrite decide_True; [done|]. set_solver.
Qed.

Lemma pass_quiet ord newInstances w :
  registry.keyed (reg w) →
  dom (registry.instances (reg w)) = identitiesOf newInstances →
  diffAndUpdateInstances ord newInstances w
  = (tt, {| reg := reg w; calls := calls w ++ [CallGetAllServices] |}).
Proof.
  intros Hkeyed Hdom. rewrite diffAndUpdateInstances_run. unfold passCalls.
  rewrite currentSetOf_identities, (identities_keyed _ Hkeyed), Hdom.
  rewrite registerPlan_quiet, deregisterPlan_quiet; [done| |].
  - intros k. rewrite elem_of_rangeKeys. apply newSetOf_is_Some.
  - intros k. by rewrite elem_of_rangeKeys, dom_newSetOf.
Qed.

(** X10. A pass is idempotent: after a pass, a second pass on the same
    observed instances only reads the registry; it makes no call of
    [RegisterService] or [DeregisterService] and leaves the registry as
    the first pass left it. *)
Theorem diff_second_pass_quiet ord1 ord2 newInstances w :
  registry.keyed (reg w) →
  let w1 := (diffAndUpdateInstances ord1 newInstances w).2 in
  diffAndUpdateInstances ord2 newInstances w1
  = (tt, {| reg := reg w1; calls := calls w1 ++ [CallGetAllServices] |}).
Proof.
  intros Hkeyed w1. apply pass_quiet.
  - by apply pass_keyed.
  - by apply pass_dom.
Qed.

Lemma diff_second_pass_quiet_witness :
  let w1 := (diffAndUpdateInstances Sample.order [Sample.node2]
               (Sample.world Sample.oneNode)).2 in
  diffAndUpdateInstances Sample.order [Sample.node2] w1
  = (tt, {| reg := reg w1; calls := calls w1 ++ [CallGetAllServices] |}).
Proof.
  apply (diff_second_pass_quiet Sample.order Sample.order [Sample.node2]
           (Sample.world Sample.oneNode)).
  apply consistent_Register, consistent_New.
Defined.

End PassResult.

Section ContainerMetadata.

Import registrar.

Lemma stripPrefix_Some p s v : stripPrefix p s = Some v ↔ s = p +:+ v.
Proof.
  revert s. induction p as [|a p IH]; intros s; simpl.
  - split; [by intros [= ->]|by intros ->].
  - destruct s as [|b s]; [done|].
    destruct (Ascii.eqb_spec a b) as [->|Hne].
    + rewrite IH. split; [by intros ->|by intros [= ->]].
    + split; [done|]. intros [= ? ?]. done.
Qed.

Lemma cutFirst_Some sep s a b :
  cutFirst sep s = Some (a, b) → s = a +:+ String sep b.
Proof.
  revert a. induction s as [|c s IH]; intros a; simpl; [done|].
  destruct (Ascii.eqb_spec c sep) as [->|Hne].
  - by intros [= <- <-].
  - destruct (cutFirst sep s) as [[a' b']|]; [|done].
    intros [= <- <-]. change (String c s = String c (a' +:+ String sep b')).
    f_equal. by apply IH.
Qed.

(** One entry of the environment, by the prefix it starts with. *)
Lemma envStep_cases keys env :
  envStep keys env
  = match stripPrefix (MinioAccessKeyVarName +:+ "=") env with
    | Some value => (value, keys.2)
    | None =>
        match stripPrefix (MinioSecretKeyVarName +:+ "=") env with
        | Some value => (keys.1, value)
        | None => keys
        end
    end.
Proof.
  destruct (stripPrefix (MinioAccessKeyVarName +:+ "=") env) as [v|] eqn:Ha.
  { apply stripPrefix_Some in Ha as ->. reflexivity. }
  destruct (stripPrefix (MinioSecretKeyVarName +:+ "=") env) as [v|] eqn:Hs.
  { apply stripPrefix_Some in Hs as ->. reflexivity. }
  unfold envStep, SplitN2.
  destruct (cutFirst "=" env) as [[a b]|] eqn:Hc; [|done].
  apply cutFirst_Some in Hc as ->.
  destruct (String.eqb_spec a MinioAccessKeyVarName) as [->|_].
  { assert (stripPrefix (MinioAccessKeyVarName +:+ "=")
              (MinioAccessKeyVarName +:+ String "=" b) = Some b) as Heq
      by (by apply stripPrefix_Some).
    congruence. }
  destruct (String.eqb_spec a MinioSecretKeyVarName) as [->|_]; [|done].
  assert (stripPrefix (MinioSecretKeyVarName +:+ "=")
            (MinioSecretKeyVarName +:+ String "=" b) = Some b) as Heq
    by (by apply stripPrefix_Some).
  congruence.
Qed.

Lemma default_last_cons {A} (d x : A) (l : list A) :
  default d (last (x :: l)) = default x (last l).
Proof. rewrite last_cons. by destruct (last l). Qed.

Lemma envValues_cons name e env :
  envValues name (e :: env)
  = match stripPrefix (name +:+ "=") e with
    | Some value => value :: envValues name env
    | None => envValues name env
    end.
Proof. reflexivity. Qed.

Lemma foldl_envStep keys env :
  foldl envStep keys env
  = (default keys.1 (last (envValues MinioAccessKeyVarName env)),
     default keys.2 (last (envValues MinioSecretKeyVarName env))).
Proof.
  revert keys. induction env as [|e env IH]; intros [ak sk]; [done|].
  cbn [foldl]. rewrite IH, envStep_cases, !envValues_cons.
  destruct (stripPrefix (MinioAccessKeyVarName +:+ "=") e) as [v|] eqn:Ha.
  - assert (stripPrefix (MinioSecretKeyVarName +:+ "=") e = None) as ->.
    { apply stripPrefix_Some in Ha as ->. reflexivity. }
    by rewrite default_last_cons.
  - destruct (stripPrefix (MinioSecretKeyVarName +:+ "=") e) as [v|];
      by rewrite ?default_last_cons.
Qed.

(** X11. The metadata of a container: the access key and the secret key
    are the values of the last entries of the environment that start
    with [MINIO_ACCESS_KEY=] and with [MINIO_SECRET_KEY=], each taken
    whole after the first equals sign, and are empty without such an
    entry; the name is the name of the container and the identity is the
    address of the network visited first, empty without a network. *)
Theorem metadata_of_container c :
  let m := getServiceMetadataFromContainer c in
  registry.AccessKey m
  = default "" (last (envValues "MINIO_ACCESS_KEY" (types.Env (types.Config c)))) ∧
  registry.SecretKey m
  = default "" (last (envValues "MINIO_SECRET_KEY" (types.Env (types.Config c)))) ∧
  registry.Name m = types.Name c ∧
  registry.IPAddress m
  = default "" ((λ network, types.IPAddress network.2)
                  <$> head (types.Networks (types.NetworkSettingsOf c))).
Proof.
  unfold getServiceMetadataFromContainer. rewrite foldl_envStep. simpl.
  split_and!; try done.
  by destruct (types.Networks (types.NetworkSettingsOf c)) as [|[? ?] ?].
Qed.

End ContainerMetadata.

Section ListenFacts.

Import registrar.

Implicit Types (w : World) (inputs : list Selected) (st : Listener).




Lemma refreshInstances_observed cli ord w :
  refreshInstances cli ord w
  = match observedBy cli with
    | Err e => (Some e, w)
    | Ok observed => (None, (diffAndUpdateInstances ord observed w).2)
    end.
Proof.
  unfold refreshInstances, observedBy.
  destruct (client.ContainerList cli listFilter) as [containers|e]; [|done].
  destruct (collectInstances cli containers []) as [observed|e]; [|done].
  unfold mbind, State_bind.
  by destruct (diffAndUpdateInstances ord observed w) as [[] w'].
Qed.

Lemma refresh_keyed cli ord w :
  registry.keyed (reg w) → registry.keyed (reg (refreshInstances cli ord w).2).
Proof.
  intros Hkeyed. rewrite refreshInstances_observed.
  destruct (observedBy cli); [by apply pass_keyed|done].
Qed.

Lemma listenLoop_steady inputs st w r :
  registry.keyed r →
  Forall (observesOnly (dom (registry.instances r))) inputs →
  reg w = r →
  reg (listenLoop inputs st w).2 = r.
Proof.
  intros Hkeyed Hall. revert st w.
  induction Hall as [|i inputs Hi _ IH]; intros st w Hw; [done|].
  destruct i as [|event daemon ord|e]; simpl; [done| |by apply IH].
  unfold mbind, State_bind, handleDockerEvent.
  destruct (shouldRefresh event) eqn:Hs; [|by apply IH].
  simpl in Hi. specialize (Hi Hs). rewrite refreshInstances_observed.
  destruct (observedBy daemon) as [observed|e]; [|by apply IH].
  rewrite pass_quiet by (by rewrite Hw). by apply IH.
Qed.

(** X16. When every pass that a later event starts fails or observes
    exactly the identities that the registry holds after the first
    pass, the events cause no change of the registry: it stays the one
    that the first pass left, whatever the events, the errors of the
    stream, the orders of the ranges and the credentials observed. *)
Theorem listen_steady daemon ord inputs w :
  registry.keyed (reg w) →
  Forall (observesOnly
            (dom (registry.instances (reg (refreshInstances daemon ord w).2))))
    inputs →
  reg (ListenForDockerEvents daemon ord inputs w).2
  = reg (refreshInstances daemon ord w).2.
Proof.
  intros Hkeyed Hall. unfold ListenForDockerEvents, mbind, State_bind.
  pose proof (refresh_keyed daemon ord w Hkeyed) as Hkeyed1.
  destruct (refreshInstances daemon ord w) as [err w0]. simpl in *.
  by apply listenLoop_steady.
Qed.

Lemma listen_steady_witness :
  reg (ListenForDockerEvents Sample.docker Sample.order
         [Received {| events.Type_ := "container"; events.Action := "start" |}
            Sample.docker Sample.order;
          StreamError (ExternalError "unexpected EOF");
          Received {| events.Type_ := "container"; events.Action := "die" |}
            Sample.dockerRace Sample.order]
         (Sample.world Sample.twoNodes)).2
  = reg (refreshInstances Sample.docker Sample.order
           (Sample.world Sample.twoNodes)).2.
Proof.
  apply listen_steady.
  - apply consistent_twoNodes.
  - apply Forall_cons_2; [|apply Forall_cons_2; [|apply Forall_cons_2]].
    + intros _. apply (bool_decide_unpack _). vm_compute. exact I.
    + exact I.
    + intros _. exact I.
    + apply Forall_nil_2.
Defined.

Lemma newSetOf_last l ip :
  newSetOf l !! ip = last (filter (λ m, registry.IPAddress m = ip) l).
Proof.
  induction l as [|x l IH] using rev_ind; [done|].
  rewrite newSetOf_snoc, filter_app.
  destruct (decide (registry.IPAddress x = ip)) as [<-|Hne].
  - rewrite lookup_insert_eq, filter_cons_True, filter_nil by done.
    by rewrite last_snoc.
  - rewrite lookup_insert_ne, filter_cons_False by done.
    by rewrite filter_nil, app_nil_r.
Qed.

(** X12. When the observed instances hold several entries for one
    identity, the one that a pass registers for a new identity is the
    last of them. *)
Theorem diff_registers_last_observed ord newInstances w ip :
  ip ∈ identitiesOf newInstances →
  ip ∉ identitiesOf (registry.GetAllServices (reg w)) →
  registry.instances (reg (diffAndUpdateInstances ord newInstances w).2) !! ip
  = last (filter (λ m, registry.IPAddress m = ip) newInstances).
Proof.
  intros HB HA. rewrite pass_instances, decide_True by set_solver.
  apply newSetOf_last.
Qed.

Lemma diff_registers_last_observed_witness :
  registry.instances
    (reg (diffAndUpdateInstances Sample.order
            [Sample.node1; Sample.node2; Sample.node1Rotated]
            (Sample.world Sample.emptyRegistry)).2) !! "10.0.0.1"
  = Some Sample.node1Rotated.
Proof.
  rewrite (diff_registers_last_observed Sample.order
             [Sample.node1; Sample.node2; Sample.node1Rotated]
             (Sample.world Sample.emptyRegistry) "10.0.0.1").
  - reflexivity.
  - apply (bool_decide_unpack _). vm_compute. exact I.
  - apply (bool_decide_unpack _). vm_compute. exact I.
Defined.

(** X13. A pass of [refreshInstances] whose calls of the daemon succeed
    converges: on a consistent registry it leaves a consistent registry
    whose entries and ring are the identities of the eligible entities
    among the inspected ones. *)
Theorem refresh_converges cli ord w containers infos :
  registry.consistent (reg w) →
  client.ContainerList cli listFilter = Ok containers →
  Forall2 (λ c info, client.ContainerInspect cli (types.ID c) = Ok info)
    containers infos →
  let r' := reg (refreshInstances cli ord w).2 in
  let observed := getServiceMetadataFromContainer <$> filter eligible infos in
  registry.consistent r' ∧
  dom (registry.instances r') = identitiesOf observed ∧
  Hash.nodes (registry.hash r') = identitiesOf observed.
Proof.
  intros Hc Hlist Hall r' observed. pose proof Hc as [Hkeyed _].
  assert (refreshInstances cli ord w
          = (None, (diffAndUpdateInstances ord observed w).2)) as Hrun.
  { unfold refreshInstances.
    rewrite Hlist, (collectInstances_all_inspected _ _ infos) by done.
    unfold mbind, State_bind. simpl. fold observed.
    by destruct (diffAndUpdateInstances ord observed w) as [[] w']. }
  unfold r'. rewrite Hrun. simpl. split_and!.
  - split; [by apply pass_keyed|]. by rewrite pass_ring, pass_dom.
  - by apply pass_dom.
  - by apply pass_ring.
Qed.

Lemma refresh_converges_witness :
  dom (registry.instances
         (reg (refreshInstances Sample.docker Sample.order
                 (Sample.world Sample.twoNodes)).2))
  = identitiesOf [Sample.node1].
Proof.
  apply (refresh_converges Sample.docker Sample.order
           (Sample.world Sample.twoNodes) Sample.listed
           [Sample.info1; Sample.info2; Sample.info3]).
  - apply consistent_twoNodes.
  - reflexivity.
  - repeat constructor.
Defined.

End ListenFacts.

Section GatewayOutcomes.

Import gateway.

Context (store : minio.ObjectStore).

Implicit Types (w : World store) (id bucket data : string).

Lemma getMatchingInstance_unresolved id w :
  (∀ j, j < 3 →
        is_Err (registry.MatchService (registryAt w (reads w + j)) id) = true) →
  ∃ errs w1,
    getMatchingInstance store id w = (Err (RetryError errs), w1) ∧
    backend w1 = backend w ∧
    List.filter isNew (trace w1) = List.filter isNew (trace w).
Proof.
  intros Hall.
  destruct (getMatchingInstance_cases store id w) as (_ & Hb & Hcases).
  destruct (firstSuccess _ 0 3) as [[k instance]|] eqn:Hf.
  { apply firstSuccess_Some in Hf as (Hk & Hok & _).
    specialize (Hall k ltac:(lia)). by rewrite Hok in Hall. }
  destruct Hcases as (Ht & _ & Hres).
  destruct (getMatchingInstance store id w) as [res w1]. simpl in *.
  eexists _, w1. split; [by rewrite Hres|]. split; [done|].
  rewrite Ht, List.filter_app. simpl. by rewrite app_nil_r.
Qed.

(** X17. When the three attempts of the resolution fail, a get and a put
    return the error of the retry policy, construct no client and leave
    the backend as it is. *)
Theorem unresolved_request_touches_nothing bucket id data w :
  (∀ j, j < 3 →
        is_Err (registry.MatchService (registryAt w (reads w + j)) id) = true) →
  (∃ errs, (GetObject store bucket id w).1 = Err (RetryError errs)) ∧
  (∃ errs, (PutObject store bucket id data w).1 = Some (RetryError errs)) ∧
  backend (GetObject store bucket id w).2 = backend w ∧
  backend (PutObject store bucket id data w).2 = backend w ∧
  List.filter isNew (trace (GetObject store bucket id w).2)
  = List.filter isNew (trace w) ∧
  List.filter isNew (trace (PutObject store bucket id data w).2)
  = List.filter isNew (trace w).
Proof.
  intros Hall.
  destruct (getMatchingInstance_unresolved id w Hall) as (errs & w1 & Hrun & Hb & Ht).
  unfold GetObject, PutObject, mbind, State_bind, mret, State_ret.
  rewrite Hrun. simpl. split_and!; eauto.
Qed.

Lemma getMatchingInstance_error_shape id w e :
  (getMatchingInstance store id w).1 = Err e →
  (∃ errs, e = RetryError errs)
  ∨ (∃ cause, e = Wrapf "failed to create minio client" cause).
Proof.
  destruct (getMatchingInstance_cases store id w) as (_ & _ & Hcases).
  destruct (firstSuccess _ 0 3) as [[k instance]|];
    destruct Hcases as (_ & _ & ->).
  - unfold clientFor. destruct (minio.New store _ _); [done|].
    intros [= <-]. right. by eexists.
  - intros [= <-]. left. by eexists.
Qed.

(** X18. A get returns [NotFoundError] exactly when the resolution gave
    a client, the client opened the object, and the read of the object
    failed with an error that holds a response of status 404; and it
    returns data exactly when the three steps succeeded, the data being
    what the read returned. *)
Theorem GetObject_outcomes bucket id w :
  ((GetObject store bucket id w).1 = Err NotFoundError ↔
   ∃ c w1 o w2 e w3,
     getMatchingInstance store id w = (Ok c, w1) ∧
     onBackend store (minio.GetObject store c bucket id) w1 = (Ok o, w2) ∧
     onBackend store (minio.ReadAll store o) w2 = (Err e, w3) ∧
     asErrorResponse e = Some 404%Z) ∧
  (∀ d, (GetObject store bucket id w).1 = Ok d ↔
   ∃ c w1 o w2 w3,
     getMatchingInstance store id w = (Ok c, w1) ∧
     onBackend store (minio.GetObject store c bucket id) w1 = (Ok o, w2) ∧
     onBackend store (minio.ReadAll store o) w2 = (Ok d, w3)).
Proof.
  pose proof (getMatchingInstance_error_shape id w) as Hshape.
  unfold GetObject, mbind, State_bind, mret, State_ret.
  destruct (getMatchingInstance store id w) as [[c|e0] w1] eqn:Hrun.
  2:{ assert (e0 ≠ NotFoundError) as Hne.
      { destruct (Hshape e0 eq_refl) as [[? ->]|[? ->]]; done. }
      simpl. split; [|intros d]; (split; [intros [= ?]; done|]).
      - by intros (? & ? & ? & ? & ? & ? & [= ?] & _).
      - by intros (? & ? & ? & ? & ? & [= ?] & _). }
  clear Hshape.
  destruct (onBackend store (minio.GetObject store c bucket id) w1)
    as [[o|e1] w2] eqn:Hget.
  2:{ simpl. split; [|intros d]; (split; [done|]).
      - intros (c' & w1' & o & w2' & e & w3 & [= <- <-] & Hget' & _). congruence.
      - intros (c' & w1' & o & w2' & w3 & [= <- <-] & Hget' & _). congruence. }
  destruct (onBackend store (minio.ReadAll store o) w2) as [[d'|e2] w3] eqn:Hread.
  - simpl. split; [split; [done|]|intros d; split].
    + intros (c' & w1' & o' & w2' & e & w3' & [= <- <-] & Hget' & Hread' & _).
      rewrite Hget in Hget'. injection Hget' as <- <-. congruence.
    + intros [= <-]. by exists c, w1, o, w2, w3.
    + intros (c' & w1' & o' & w2' & w3' & [= <- <-] & Hget' & Hread').
      rewrite Hget in Hget'. injection Hget' as <- <-. congruence.
  - assert ((∃ c' w1' o' w2' e w3',
               (Ok c, w1) = (Ok c', w1') ∧
               onBackend store (minio.GetObject store c' bucket id) w1' = (Ok o', w2') ∧
               onBackend store (minio.ReadAll store o') w2' = (Err e, w3') ∧
               asErrorResponse e = Some 404%Z)
            ↔ asErrorResponse e2 = Some 404%Z) as Hiff.
    { split.
      - intros (c' & w1' & o' & w2' & e & w3' & [= <- <-] & Hget' & Hread' & Has).
        rewrite Hget in Hget'. injection Hget' as <- <-.
        rewrite Hread in Hread'. by injection Hread' as <- <-.
      - intros Has. by exists c, w1, o, w2, e2, w3. }
    rewrite Hiff. clear Hiff. split.
    + destruct (asErrorResponse e2) as [code|] eqn:Has; simpl.
      * unfold StatusNotFound. destruct (Z.eqb_spec code 404) as [->|Hne]; simpl.
        -- done.
        -- split; [done|]. by intros [= ?].
      * done.
    + intros d. split.
      * destruct (asErrorResponse e2) as [code|]; [destruct (_ =? _)%Z|]; done.
      * intros (c' & w1' & o' & w2' & w3' & [= <- <-] & Hget' & Hread').
        rewrite Hget in Hget'. injection Hget' as <- <-. congruence.
Qed.

(** X19. A put succeeds exactly when the resolution gave a client, the
    check of the bucket succeeded, the bucket existed or else its
    creation succeeded (the bucket is created only when the check says it
    does not exist), and the write of the object succeeded. *)
Theorem PutObject_succeeds_iff bucket id data w :
  (PutObject store bucket id data w).1 = None ↔
  ∃ c w1 exists_ w2 w3 w4,
    getMatchingInstance store id w = (Ok c, w1) ∧
    onBackend store (minio.BucketExists store c bucket) w1 = (Ok exists_, w2) ∧
    (if exists_ then w3 = w2
     else onBackend store (minio.MakeBucket store c bucket) w2 = (None, w3)) ∧
    onBackend store (minio.PutObject store c bucket id data) w3 = (None, w4).
Proof.
  unfold PutObject, mbind, State_bind, mret, State_ret.
  destruct (getMatchingInstance store id w) as [[c|e0] w1] eqn:Hrun.
  2:{ simpl. split; [done|]. by intros (? & ? & ? & ? & ? & ? & [= ?] & _). }
  destruct (onBackend store (minio.BucketExists store c bucket) w1)
    as [[ex|e1] w2] eqn:Hex.
  2:{ simpl. split; [done|].
      intros (c' & w1' & ex & w2' & w3 & w4 & [= <- <-] & Hex' & _). congruence. }
  destruct ex; simpl.
  - destruct (onBackend store (minio.PutObject store c bucket id data) w2)
      as [[e3|] w4] eqn:Hput; simpl.
    + split; [done|].
      intros (c' & w1' & ex & w2' & w3 & w4' & [= <- <-] & Hex' & Hmk & Hput').
      rewrite Hex in Hex'. injection Hex' as <- <-. subst w3. congruence.
    + split; [|done]. intros _. by exists c, w1, true, w2, w2, w4.
  - destruct (onBackend store (minio.MakeBucket store c bucket) w2)
      as [[e2|] w3] eqn:Hmk; simpl.
    + split; [done|].
      intros (c' & w1' & ex & w2' & w3' & w4' & [= <- <-] & Hex' & Hmk' & _).
      rewrite Hex in Hex'. injection Hex' as <- <-. congruence.
    + destruct (onBackend store (minio.PutObject store c bucket id data) w3)
        as [[e3|] w4] eqn:Hput; simpl.
      * split; [done|].
        intros (c' & w1' & ex & w2' & w3' & w4' & [= <- <-] & Hex' & Hmk' & Hput').
        rewrite Hex in Hex'. injection Hex' as <- <-.
        rewrite Hmk in Hmk'. injection Hmk' as <-. congruence.
      * split; [|done]. intros _. by exists c, w1, false, w2, w3, w4.
Qed.

End GatewayOutcomes.

Lemma unresolved_request_touches_nothing_witness :
  gateway.backend
    (gateway.PutObject Sample.memoryStore "b" "k1" "X"
       (Sample.request Sample.ringOnly)).2
  = gateway.backend (Sample.request Sample.ringOnly).
Proof.
  apply (unresolved_request_touches_nothing Sample.memoryStore "b" "k1" "X"
           (Sample.request Sample.ringOnly)).
  intros j Hj. destruct j as [|[|[|j]]]; [reflexivity..|lia].
Defined.

Section HandlerFacts.

Import app.

Context {S : Type} (storage : Storage S).

Implicit Types (bucket id : string) (s : S).

(** The handlers reject an id that [validateID] refuses before
    anything else: the answer is 400 with the text of the validation
    error, and the storage is not called, so its state is unchanged. *)
Lemma handlers_reject_invalid_id bucket id requestBody s err :
  app.validateID id = Some err →
  handleGetObject storage bucket id s
  = ({| status := 400; body := ErrorText err |}, s) ∧
  handlePutObject storage bucket id requestBody s
  = ({| status := 400; body := ErrorText err |}, s).
Proof. intros Hv. unfold handleGetObject, handlePutObject. by rewrite Hv. Qed.

(** X20. The status of the answer to a get is one of 200, 400, 404 and
    500; it is 200 only with the bytes that the storage returned for a
    valid id, and 404 only when the storage failed with an error that
    is, or wraps, [NotFoundError]. *)
Theorem handleGetObject_status bucket id s :
  let response := (handleGetObject storage bucket id s).1 in
  (status response = 200%Z ∨ status response = 400%Z
   ∨ status response = 404%Z ∨ status response = 500%Z) ∧
  (status response = 200%Z ↔
   app.validateID id = None ∧
   ∃ object, (GetObject storage bucket id s).1 = Ok object
             ∧ body response = Bytes object) ∧
  (status response = 404%Z ↔
   app.validateID id = None ∧
   ∃ e, (GetObject storage bucket id s).1 = Err e ∧ errorsIsNotFound e = true).
Proof.
  unfold handleGetObject, mbind, State_bind, mret, State_ret.
  destruct (app.validateID id) as [err|]; simpl.
  { split_and!; [tauto|split; [done|by intros [? _]]..]. }
  destruct (GetObject storage bucket id s) as [[object|e] s1]; simpl.
  - split_and!; [tauto| |].
    + split; [|done]. intros _. split; [done|]. by exists object.
    + split; [done|]. by intros (_ & e & ? & _).
  - destruct (errorsIsNotFound e) eqn:He; simpl.
    + split_and!; [tauto| |].
      * split; [done|]. by intros (_ & ? & ? & _).
      * split; [|done]. intros _. split; [done|]. by exists e.
    + split_and!; [tauto| |].
      * split; [done|]. by intros (_ & ? & ? & _).
      * split; [done|]. intros (_ & e' & [= <-] & ?). congruence.
Qed.

(** X21. The answer to a put is 200 exactly when the id is valid, the
    body of the request was read and the storage stored it; a failure to
    read the body is answered 500 without a call of the storage. *)
Theorem handlePutObject_status bucket id requestBody s :
  let response := (handlePutObject storage bucket id requestBody s).1 in
  (status response = 200%Z ↔
   app.validateID id = None ∧
   ∃ object, requestBody = Ok object
             ∧ (PutObject storage bucket id object s).1 = None) ∧
  (app.validateID id = None → is_Err requestBody = true →
   handlePutObject storage bucket id requestBody s
   = ({| status := 500; body := NoBody |}, s)).
Proof.
  unfold handlePutObject, mbind, State_bind, mret, State_ret.
  destruct (app.validateID id) as [err|]; simpl.
  { split; [split; [done|by intros [? _]]|done]. }
  destruct requestBody as [object|e]; simpl.
  - split; [|done].
    destruct (PutObject storage bucket id object s) as [[e|] s1] eqn:Hp; simpl.
    + split; [done|]. intros (_ & o & [= <-] & Hput). by rewrite Hp in Hput.
    + split; [|done]. intros _. split; [done|]. exists object. by rewrite Hp.
  - split; [|done]. split; [done|]. by intros (_ & ? & ? & _).
Qed.

End HandlerFacts.

Lemma handlers_reject_invalid_id_witness :
  app.handleGetObject (app.gatewayStorage Sample.memoryStore) "b" "a-b"
    (Sample.request Sample.oneNode)
  = ({| app.status := 400;
        app.body := app.ErrorText (Errorf "id contains invalid characters") |},
     Sample.request Sample.oneNode).
Proof.
  apply (handlers_reject_invalid_id (app.gatewayStorage Sample.memoryStore)
           "b" "a-b" (Ok "") (Sample.request Sample.oneNode)).
  reflexivity.
Defined.

Lemma handlePutObject_status_witness :
  app.handlePutObject (app.gatewayStorage Sample.memoryStore) "b" "abc123"
    (Err (ExternalError "unexpected EOF")) (Sample.request Sample.oneNode)
  = ({| app.status := 500; app.body := app.NoBody |},
     Sample.request Sample.oneNode).
Proof.
  apply (handlePutObject_status (app.gatewayStorage Sample.memoryStore)
           "b" "abc123" (Err (ExternalError "unexpected EOF"))
           (Sample.request Sample.oneNode)); reflexivity.
Defined.

Section EndToEnd.

Import app.

Context (store : minio.ObjectStore).

Implicit Types (w : gateway.World store) (bucket id : string).

(** X22. Over the gateway, a get of a valid id whose resolution fails is
    answered 500, not 404, although the registry found no node; and a
    get whose read of the object fails with a response of status 404 is
    answered 404. *)
Theorem get_status_over_gateway bucket id w :
  app.validateID id = None →
  ((∀ j, j < 3 →
      is_Err (registry.MatchService
                (gateway.registryAt w (gateway.reads w + j)) id) = true) →
   (handleGetObject (gatewayStorage store) bucket id w).1
   = {| status := 500; body := NoBody |}) ∧
  ((gateway.GetObject store bucket id w).1 = Err NotFoundError →
   (handleGetObject (gatewayStorage store) bucket id w).1
   = {| status := 404; body := NoBody |}).
Proof.
  intros Hv. unfold handleGetObject, mbind, State_bind, mret, State_ret.
  rewrite Hv. cbn [GetObject gatewayStorage]. split.
  - intros Hall.
    destruct (getMatchingInstance_unresolved store id w Hall)
      as (errs & w1 & Hrun & _).
    unfold gateway.GetObject, mbind, State_bind, mret, State_ret.
    by rewrite Hrun.
  - destruct (gateway.GetObject store bucket id w) as [r w1]. simpl.
    by intros ->.
Qed.

End EndToEnd.

Lemma get_status_over_gateway_witness :
  (app.handleGetObject (app.gatewayStorage Sample.memoryStore) "b" "k1"
     (Sample.request Sample.ringOnly)).1
  = {| app.status := 500; app.body := app.NoBody |}.
Proof.
  apply (get_status_over_gateway Sample.memoryStore "b" "k1"
           (Sample.request Sample.ringOnly)).
  - reflexivity.
  - intros j Hj. destruct j as [|[|[|j]]]; [reflexivity..|lia].
Defined.

Example get_missing_object_is_404 :
  (app.handleGetObject (app.gatewayStorage Sample.memoryStore) "b" "abc123"
     (Sample.request Sample.oneNode)).1
  = {| app.status := 404; app.body := app.NoBody |}.
Proof. vm_compute. reflexivity. Qed.

Section RefreshErrors.

Import registrar.

Lemma collectInstances_app cli before rest acc :
  collectInstances cli (before ++ rest) acc
  = match collectInstances cli before acc with
    | Ok acc' => collectInstances cli rest acc'
    | Err e => Err e
    end.
Proof.
  revert acc. induction before as [|c before IH]; intros acc; [done|].
  simpl. destruct (client.ContainerInspect cli (types.ID c)) as [info|e]; [|done].
  destruct (negb _); [apply IH|]. destruct (negb _); apply IH.
Qed.

(** X23. The error of a failed pass is the error of the call that
    failed first: the error of the list, or else the error of the first
    inspection that fails in the order of the list; the entities after
    it do not matter. *)
Theorem refresh_reports_first_error cli ord w :
  (∀ e, client.ContainerList cli listFilter = Err e →
        refreshInstances cli ord w = (Some e, w)) ∧
  (∀ before c after infos e,
     client.ContainerList cli listFilter = Ok (before ++ c :: after) →
     Forall2 (λ c' info, client.ContainerInspect cli (types.ID c') = Ok info)
       before infos →
     client.ContainerInspect cli (types.ID c) = Err e →
     refreshInstances cli ord w = (Some e, w)).
Proof.
  unfold refreshInstances. split.
  - by intros e ->.
  - intros before c after infos e -> Hbefore Hfail.
    rewrite collectInstances_app,
      (collectInstances_all_inspected _ _ infos) by done.
    simpl. by rewrite Hfail.
Qed.

Lemma refresh_reports_first_error_witness :
  refreshInstances Sample.dockerRace Sample.order (Sample.world Sample.oneNode)
  = (Some (ExternalError "No such container"), Sample.world Sample.oneNode).
Proof.
  destruct (refresh_reports_first_error Sample.dockerRace Sample.order
              (Sample.world Sample.oneNode)) as [_ Hinspect].
  apply (Hinspect [ {| types.ID := "c1" |} ] {| types.ID := "c2" |}
           [ {| types.ID := "c3" |} ] [Sample.info1]).
  - reflexivity.
  - repeat constructor.
  - reflexivity.
Defined.

End RefreshErrors.
